(** * pdf-watermark: a shallow embedding of [watermark.py]

    The script rasterises a PDF with [pdftoppm], pastes a resized logo on the
    bottom-right corner of every page and rebuilds a PDF with [img2pdf].

    The development follows the script function by function:
    - [PyFloat]: the arithmetic of Python's [float] (53-bit significand,
      round to nearest, ties to even) together with [round] and [int];
    - [calc_watermark_size], the sizing algorithm;
    - [Pillow]: the raster operations the script calls ([convert], [split],
      [point], [merge], [paste]);
    - [prepare_watermark], [apply_watermark], [extract_pages], [build_pdf]
      and [main], written in a small monad that threads the log of the
      effects the process has on the outside world and propagates Python
      exceptions ([sys.exit] raises [SystemExit]). *)

From Stdlib Require Import ZArith QArith Qabs Qpower Lia Lqa.
From Stdlib Require Import List String Ascii Bool DecimalString.
From Stdlib Require Import Floats.SpecFloat.
From Stdlib Require Import Sorted Permutation DecimalZ FinFun.
Import ListNotations.
Local Open Scope string_scope.
Local Open Scope list_scope.
Local Open Scope Z_scope.

(* ================================================================= *)
(** ** Python exceptions and results *)

Inductive exn : Type :=
| ZeroDivisionError
| ValueError
| SystemExit (code : Z)
| CalledProcessError (returncode : Z)
| FileNotFoundError
| UnidentifiedImageError.

Inductive result (A : Type) : Type :=
| Ok (a : A)
| Raise (e : exn).

Arguments Ok {A} a.
Arguments Raise {A} e.

Definition rbind {A B : Type} (r : result A) (k : A -> result B) : result B :=
  match r with
  | Ok a => k a
  | Raise e => Raise e
  end.

(** The status the interpreter hands to the operating system: 0 on normal
    termination, the argument of [sys.exit], 1 for an uncaught exception. *)
Definition exit_status {A : Type} (r : result A) : Z :=
  match r with
  | Ok _ => 0
  | Raise (SystemExit code) => code
  | Raise _ => 1
  end.

(* ================================================================= *)
(** ** Python floats

    A finite [float] is the rational it denotes.  Every arithmetic operation
    computes the exact rational result and rounds it to 53 significant bits,
    ties to even, as IEEE 754 binary64 does.  The exponent is not bounded:
    the model and binary64 agree as long as no intermediate result leaves
    the range [2^-1022, 2^1024), which holds for any image dimensions
    Pillow can report ([binary64_agrees] checks the agreement against the
    Standard Library's reference implementation on a grid of sizes). *)

Module PyFloat.

Definition float : Type := Q.

Definition two : Q := inject_Z 2.

(** Nearest integer, ties to the even one. *)
Definition round_half_even (q : Q) : Z :=
  let n := Qnum q in
  let d := Zpos (Qden q) in
  let f := n / d in
  let r2 := 2 * (n mod d) in
  if r2 <? d then f
  else if d <? r2 then f + 1
  else if Z.even f then f else f + 1.

(** [mag q] is the binary order of magnitude of a non-zero [q]:
    [2 ^ mag q <= |q| < 2 ^ (mag q + 1)]. *)
Definition mag (q : Q) : Z :=
  let k := Z.log2 (Z.abs (Qnum q)) - Z.log2 (Zpos (Qden q)) in
  if Qle_bool (two ^ k) (Qabs q) then k else k - 1.

Definition prec : Z := 53.

(** Exponent of the unit in the last place of [q], and [q] counted in
    that unit. *)
Definition cexp (q : Q) : Z := mag q - (prec - 1).
Definition scaled (q : Q) : Q := (q * two ^ (- cexp q))%Q.

(** Rounding of an exact result to the nearest float. *)
Definition rnd (q : Q) : float :=
  if Qnum q =? 0 then 0%Q
  else (inject_Z (round_half_even (scaled q)) * two ^ cexp q)%Q.

(** [float(n)] *)
Definition of_int (n : Z) : float := rnd (inject_Z n).

(** [x * y] *)
Definition mul (x y : float) : float := rnd (x * y).

(** [x / y] *)
Definition div (x y : float) : result float :=
  if Qnum y =? 0 then Raise ZeroDivisionError else Ok (rnd (x / y)).

(** [a / b] on two [int]s: the correctly rounded quotient. *)
Definition int_truediv (a b : Z) : result float :=
  if b =? 0 then Raise ZeroDivisionError
  else Ok (rnd (inject_Z a / inject_Z b)).

(** [round(x)] with one argument: an [int], ties to even. *)
Definition round (x : float) : Z := round_half_even x.

(** [int(x)]: truncation towards zero. *)
Definition trunc (x : float) : Z := Z.quot (Qnum x) (Zpos (Qden x)).

End PyFloat.

(* ================================================================= *)
(** ** Configuration (lines 22-33) *)

Definition PDF_INPUT : string := "sources/example1.pdf".
Definition PDF_OUTPUT : string := "output_watermarked.pdf".
Definition TMP_DIR : string := "tmp_pages".

Definition PAGE_W : Z := 1376.
Definition PAGE_H : Z := 768.

Definition WM_MAX_W : Z := 120.
Definition WM_MIN_W : Z := 107.
Definition WM_MIN_H : Z := 21.
Definition WM_OPACITY : PyFloat.float := 1%Q.
Definition WM_MARGIN : Z := 0.

(* ================================================================= *)
(** ** [calc_watermark_size] (lines 58-73) *)

(** The local variables at line 69, after the first [if]. *)
Definition size_after_height_floor (orig_w orig_h : Z)
  : result (PyFloat.float * Z * Z) :=
  rbind (PyFloat.int_truediv orig_h orig_w) (fun ratio =>
  let new_w := WM_MAX_W in
  let new_h := PyFloat.round (PyFloat.mul (PyFloat.of_int new_w) ratio) in
  if new_h <? WM_MIN_H then
    let new_h := WM_MIN_H in
    rbind (PyFloat.div (PyFloat.of_int new_h) ratio) (fun x =>
    let new_w := PyFloat.round x in
    Ok (ratio, new_w, new_h))
  else Ok (ratio, new_w, new_h)).

(** The second [if] and the [return]. *)
Definition width_floor (st : PyFloat.float * Z * Z) : Z * Z :=
  let '(ratio, new_w, new_h) := st in
  if new_w <? WM_MIN_W then
    let new_w := WM_MIN_W in
    let new_h := PyFloat.round (PyFloat.mul (PyFloat.of_int new_w) ratio) in
    (new_w, new_h)
  else (new_w, new_h).

Definition calc_watermark_size (orig_w orig_h : Z) : result (Z * Z) :=
  rbind (size_after_height_floor orig_w orig_h) (fun st => Ok (width_floor st)).

(* ================================================================= *)
(** ** Pillow rasters

    Only what the script uses: 8-bit images in mode RGB or RGBA (the PNG
    pages written by [pdftoppm -png] are RGB) and the single-band images
    produced by [split].  An RGB pixel is stored with alpha 255. *)

Module Pillow.

Inductive mode : Type := RGB | RGBA.

Record pixel : Type := Pixel { red : Z; green : Z; blue : Z; alpha : Z }.

Record Image : Type := MkImage {
  im_mode : mode;
  width : Z;
  height : Z;
  getpixel : Z -> Z -> pixel
}.

(** A single-band image (mode L). *)
Record Band : Type := MkBand {
  band_width : Z;
  band_height : Z;
  band_get : Z -> Z -> Z
}.

(** Every band of every pixel holds an 8-bit value. *)
Definition is_8bit (v : Z) : Prop := 0 <= v <= 255.

Definition pixel_8bit (p : pixel) : Prop :=
  is_8bit (red p) /\ is_8bit (green p) /\ is_8bit (blue p) /\
  is_8bit (alpha p).

Definition image_8bit (im : Image) : Prop :=
  forall x y : Z, pixel_8bit (getpixel im x y).

Definition size (im : Image) : Z * Z := (width im, height im).

(** [im.convert(m)] between RGB and RGBA: adding the alpha band fills it
    with 255, removing it discards its values. *)
Definition convert (m : mode) (im : Image) : Image :=
  match m, im_mode im with
  | RGBA, RGBA => im
  | _, _ =>
      MkImage m (width im) (height im)
        (fun x y =>
           let p := getpixel im x y in
           Pixel (red p) (green p) (blue p) 255)
  end.

(** [im.split()] on an RGBA image. *)
Definition split (im : Image) : Band * Band * Band * Band :=
  let band (ch : pixel -> Z) :=
    MkBand (width im) (height im) (fun x y => ch (getpixel im x y)) in
  (band red, band green, band blue, band alpha).

Definition clip8 (v : Z) : Z := Z.max 0 (Z.min 255 v).

(** [band.point(f)]: [f] is tabulated on 0..255 (entries are stored as
    8-bit values) and every pixel is looked up in the table. *)
Definition lookup_table (f : Z -> Z) : list Z :=
  map (fun i => clip8 (f (Z.of_nat i))) (seq 0 256).

Definition point (b : Band) (f : Z -> Z) : Band :=
  let lut := lookup_table f in
  MkBand (band_width b) (band_height b)
    (fun x y => nth (Z.to_nat (band_get b x y)) lut 0).

(** [Image.merge("RGBA", (r, g, b, a))] *)
Definition merge_RGBA (bands : Band * Band * Band * Band) : Image :=
  let '(r, g, b, a) := bands in
  MkImage RGBA (band_width r) (band_height r)
    (fun x y =>
       Pixel (band_get r x y) (band_get g x y) (band_get b x y)
             (band_get a x y)).

(** libImaging's rounding division by 255 and its blend of two 8-bit
    values under an 8-bit mask. *)
Definition div255 (a : Z) : Z :=
  let tmp := a + 128 in
  Z.shiftr (Z.shiftr tmp 8 + tmp) 8.

Definition blend (mask in1 in2 : Z) : Z :=
  div255 (in1 * (255 - mask) + in2 * mask).

Definition blend_pixel (mask : Z) (dst src : pixel) : pixel :=
  Pixel (blend mask (red dst) (red src))
        (blend mask (green dst) (green src))
        (blend mask (blue dst) (blue src))
        (blend mask (alpha dst) (alpha src)).

(** The rectangle covered by an image of size [w] x [h] whose upper left
    corner is put at [(x0, y0)]. *)
Definition in_box (x0 y0 w h x y : Z) : bool :=
  (x0 <=? x) && (x <? x0 + w) && (y0 <=? y) && (y <? y0 + h).

(** [dst.paste(src, (x0, y0), mask)] for RGBA images: inside the box each
    band of [dst] is blended with [src] under the alpha band of [mask];
    the part of the box that falls outside [dst] is clipped.  The call
    updates [dst] in place; [dst] is not aliased in the script, so the
    updated raster is returned instead. *)
Definition paste (dst src : Image) (box : Z * Z) (mask : Image) : Image :=
  let '(x0, y0) := box in
  MkImage (im_mode dst) (width dst) (height dst)
    (fun x y =>
       if in_box x0 y0 (width src) (height src) x y then
         blend_pixel (alpha (getpixel mask (x - x0) (y - y0)))
                     (getpixel dst x y)
                     (getpixel src (x - x0) (y - y0))
       else getpixel dst x y).

End Pillow.

Import Pillow.

(* ================================================================= *)
(** ** Strings: [str(int)], format specifications, [int(str)], paths *)

Definition str_of_int (n : Z) : string := NilZero.string_of_int (Z.to_int n).

Fixpoint zeros (n : nat) : string :=
  match n with
  | O => ""
  | S n' => String "0" (zeros n')
  end.

(** [f"{i:03d}"] for a non-negative [i]. *)
Definition format_03d (i : Z) : string :=
  let s := str_of_int i in
  String.append (zeros (3 - String.length s)) s.

(** [f"{x:.1f}"] for a non-negative [x]: the decimal with one digit after
    the point nearest to the exact value of [x]. *)
Definition format_1f (x : PyFloat.float) : string :=
  let t := PyFloat.round_half_even (x * inject_Z 10) in
  String.append (str_of_int (t / 10))
    (String.append "." (str_of_int (t mod 10))).

Definition is_space (c : ascii) : bool :=
  let n := Z.of_nat (nat_of_ascii c) in
  ((9 <=? n) && (n <=? 13)) || ((28 <=? n) && (n <=? 32)).

Definition is_digit (c : ascii) : bool :=
  let n := Z.of_nat (nat_of_ascii c) in
  (48 <=? n) && (n <=? 57).

Definition digit_value (c : ascii) : Z := Z.of_nat (nat_of_ascii c) - 48.

Fixpoint lstrip (cs : list ascii) : list ascii :=
  match cs with
  | c :: cs' => if is_space c then lstrip cs' else cs
  | [] => []
  end.

Definition strip (cs : list ascii) : list ascii :=
  rev (lstrip (rev (lstrip cs))).

(** Decimal digits, where single underscores may separate digits.
    [after_digit] tells whether the previous character was a digit. *)
Fixpoint digits_value (cs : list ascii) (acc : Z) (after_digit : bool)
  : option Z :=
  match cs with
  | [] => if after_digit then Some acc else None
  | c :: cs' =>
      if is_digit c then digits_value cs' (10 * acc + digit_value c) true
      else if Ascii.eqb c "_" then
        if after_digit then digits_value cs' acc false else None
      else None
  end.

(** The interpreter refuses to convert more than 4300 digits. *)
Definition INT_MAX_STR_DIGITS : nat := 4300.

(** [int(s)] on a string of ASCII characters: surrounding white space is
    ignored, a sign may precede the digits. *)
Definition int_of_str (s : string) : result Z :=
  let cs := strip (list_ascii_of_string s) in
  let '(negative, body) :=
    match cs with
    | "-"%char :: body => (true, body)
    | "+"%char :: body => (false, body)
    | _ => (false, cs)
    end in
  if (INT_MAX_STR_DIGITS <? List.length (filter is_digit body))%nat
  then Raise ValueError
  else
    match digits_value body 0 false with
    | Some n => Ok (if negative then - n else n)
    | None => Raise ValueError
    end.

(** [os.path.join(a, b)] on POSIX. *)
Definition os_path_join (a b : string) : string :=
  if String.prefix "/" b then b
  else if (String.eqb a "") || String.eqb (substring (String.length a - 1) 1 a) "/"
       then String.append a b
       else String.append a (String.append "/" b).

(** [sorted] on paths: insertion into a list ordered by code points. *)
Fixpoint insert_sorted (p : string) (l : list string) : list string :=
  match l with
  | [] => [p]
  | q :: l' => if String.leb p q then p :: l else q :: insert_sorted p l'
  end.

Definition sorted (l : list string) : list string :=
  fold_right insert_sorted [] l.

(* ================================================================= *)
(** ** The process and the outside world

    What the process does to the outside world is logged, in order, as a
    list of events.  What the outside world answers (which files exist, the
    status of [pdftoppm], the decoded images, directory listings) is read
    from an environment. *)

Inductive event : Type :=
| EvStdout (line : string)
| EvChdir (dir : string)
| EvMakedirs (dir : string)
| EvRun (argv : list string)
| EvSaveImage (path format : string) (quality : option Z) (img : Image)
| EvOpenWb (path : string)
| EvWritePdf (path : string) (pages : list string)
| EvUnlink (path : string)
| EvRmdir (path : string).

Record Env : Type := MkEnv {
  script_dir : string;
  isfile : string -> bool;
  run_status : list string -> result Z;
  glob : string -> string -> list string;
  image_open : string -> result Image;
  resize_lanczos : Image -> Z * Z -> Image;
  getsize : string -> Z
}.

Definition IO (A : Type) : Type := list event -> result A * list event.

Definition ret {A : Type} (a : A) : IO A := fun t => (Ok a, t).

Definition bind {A B : Type} (m : IO A) (k : A -> IO B) : IO B :=
  fun t =>
    match m t with
    | (Ok a, t') => k a t'
    | (Raise e, t') => (Raise e, t')
    end.

Definition raise {A : Type} (e : exn) : IO A := fun t => (Raise e, t).

Definition lift {A : Type} (r : result A) : IO A := fun t => (r, t).

Definition emit (ev : event) : IO unit := fun t => (Ok tt, t ++ [ev]).

(** [try: body  except ValueError: handler] *)
Definition try_except_ValueError {A : Type} (body handler : IO A) : IO A :=
  fun t =>
    match body t with
    | (Raise ValueError, t') => handler t'
    | r => r
    end.

Declare Scope io_scope.
Delimit Scope io_scope with io.
Notation "x <- m ;; k" := (bind m (fun x => k))
  (at level 61, m at next level, right associativity) : io_scope.
Notation "' pat <- m ;; k" := (bind m (fun x => let 'pat := x in k))
  (at level 61, pat pattern, m at next level, right associativity) : io_scope.
Notation "m ;; k" := (bind m (fun _ => k))
  (at level 61, right associativity) : io_scope.
Local Open Scope io_scope.

Definition print (line : string) : IO unit := emit (EvStdout line).

Definition sys_exit {A : Type} (code : Z) : IO A := raise (SystemExit code).

(** [for i, x in enumerate(xs, start=i0): acc = body(i, x, acc)] *)
Fixpoint for_enumerate {A S : Type} (body : Z -> A -> S -> IO S)
  (xs : list A) (i : Z) (acc : S) : IO S :=
  match xs with
  | [] => ret acc
  | x :: xs' =>
      acc' <- body i x acc ;;
      for_enumerate body xs' (i + 1) acc'
  end.

Definition len {A : Type} (l : list A) : Z := Z.of_nat (List.length l).

Definition concat_str (parts : list string) : string :=
  fold_right String.append "" parts.

(** Command line arguments as [argparse] returns them (lines 36-55). *)
Record Args : Type := MkArgs {
  logo : string;
  quality : string;
  output : string
}.

(* ================================================================= *)
(** ** [extract_pages] (lines 76-87) *)

Definition extract_pages (env : Env) (pdf_path tmp_dir : string)
  : IO (list string) :=
  emit (EvMakedirs tmp_dir) ;;
  let prefix := os_path_join tmp_dir "page" in
  let argv := ["pdftoppm"; "-png"; "-r"; "72"; pdf_path; prefix] in
  emit (EvRun argv) ;;
  status <- lift (run_status env argv) ;;
  (if status =? 0 then ret tt else raise (CalledProcessError status)) ;;
  let pages := sorted (glob env tmp_dir "page-*.png") in
  print (concat_str ["  Extraídas "; str_of_int (len pages); " páginas"]) ;;
  ret pages.

(* ================================================================= *)
(** ** [prepare_watermark] (lines 90-101) *)

(** The function given to [point] at line 99. *)
Definition scale_alpha (opacity : PyFloat.float) (p : Z) : Z :=
  PyFloat.trunc (PyFloat.mul (PyFloat.of_int p) opacity).

(** Lines 98-100: the opacity step. *)
Definition apply_opacity (logo : Image) (opacity : PyFloat.float) : Image :=
  let '(r, g, b, a) := split logo in
  let a := point a (scale_alpha opacity) in
  merge_RGBA (r, g, b, a).

Definition prepare_watermark (env : Env) (logo_path : string)
  (opacity : PyFloat.float) : IO Image :=
  opened <- lift (image_open env logo_path) ;;
  let logo := convert RGBA opened in
  let '(orig_w, orig_h) := size logo in
  '(new_w, new_h) <- lift (calc_watermark_size orig_w orig_h) ;;
  let logo := resize_lanczos env logo (new_w, new_h) in
  print (concat_str ["  Logo: "; str_of_int orig_w; "x"; str_of_int orig_h;
                     " → "; str_of_int new_w; "x"; str_of_int new_h]) ;;
  ret (apply_opacity logo opacity).

(* ================================================================= *)
(** ** [apply_watermark] (lines 104-113) *)

Definition apply_watermark (env : Env) (page_path : string)
  (watermark : Image) : IO Image :=
  opened <- lift (image_open env page_path) ;;
  let page := convert RGBA opened in
  let '(wm_w, wm_h) := size watermark in
  let x := width page - wm_w - WM_MARGIN in
  let y := height page - wm_h - WM_MARGIN in
  let page := paste page watermark (x, y) watermark in
  ret (convert RGB page).

(* ================================================================= *)
(** ** [build_pdf] (lines 116-140) *)

Definition build_pdf (env : Env) (images : list Image)
  (output_path tmp_dir quality : string) : IO unit :=
  (match images with
   | [] =>
       print "ERROR: Sin imágenes para generar PDF" ;;
       sys_exit 1
   | _ :: _ => ret tt
   end) ;;
  let lossless := String.eqb quality "lossless" in
  let ext := if lossless then "png" else "jpg" in
  img_paths <-
    for_enumerate
      (fun i img img_paths =>
         let p := os_path_join tmp_dir
                    (concat_str ["wm_"; format_03d i; "."; ext]) in
         (if lossless then emit (EvSaveImage p "PNG" None img)
          else
            q <- lift (int_of_str quality) ;;
            emit (EvSaveImage p "JPEG" (Some q) img)) ;;
         ret (img_paths ++ [p]))
      images 0 [] ;;
  emit (EvOpenWb output_path) ;;
  emit (EvWritePdf output_path img_paths) ;;
  size_mb <- lift (PyFloat.int_truediv (getsize env output_path)
                                       (1024 * 1024)) ;;
  let mode := if lossless then "PNG lossless"
              else String.append "JPEG q=" quality in
  print (concat_str ["  PDF generado: "; output_path; " (";
                     format_1f size_mb; " MB, "; mode; ")"]).

(* ================================================================= *)
(** ** [main] (lines 143-185) *)

(** Lines 148-150. *)
Definition check_logo (env : Env) (args : Args) : IO unit :=
  if negb (isfile env (logo args)) then
    print (String.append "ERROR: Logo no encontrado: " (logo args)) ;;
    sys_exit 1
  else ret tt.

(** Lines 152-159. *)
Definition check_quality (args : Args) : IO unit :=
  if negb (String.eqb (quality args) "lossless") then
    try_except_ValueError
      (q <- lift (int_of_str (quality args)) ;;
       if negb ((1 <=? q) && (q <=? 100)) then raise ValueError else ret tt)
      (print "ERROR: --quality debe ser 'lossless' o un número 1-100" ;;
       sys_exit 1)
  else ret tt.

(** Lines 161-185: the four stages and the removal of the temporaries. *)
Definition pipeline (env : Env) (args : Args) : IO unit :=
  print (String.append "  Logo:    " (logo args)) ;;
  print (String.append "  Calidad: " (quality args)) ;;
  print (String.append "  Salida:  " (output args)) ;;
  print "" ;;
  print "[1/4] Extrayendo páginas del PDF..." ;;
  pages <- extract_pages env PDF_INPUT TMP_DIR ;;
  print "[2/4] Preparando marca de agua..." ;;
  watermark <- prepare_watermark env (logo args) WM_OPACITY ;;
  print "[3/4] Aplicando marca de agua..." ;;
  result_images <-
    for_enumerate
      (fun i p result_images =>
         img <- apply_watermark env p watermark ;;
         print (concat_str ["  Página "; str_of_int (i + 1); "/";
                            str_of_int (len pages); " ✓"]) ;;
         ret (result_images ++ [img]))
      pages 0 [] ;;
  print "[4/4] Reconstruyendo PDF..." ;;
  build_pdf env result_images (output args) TMP_DIR (quality args) ;;
  for_enumerate (fun _ p _ => emit (EvUnlink p)) (glob env TMP_DIR "*") 0 tt ;;
  emit (EvRmdir TMP_DIR) ;;
  print "Listo. Temporales eliminados.".

Definition main (env : Env) (args : Args) : IO unit :=
  let base := script_dir env in
  emit (EvChdir base) ;;
  check_logo env args ;;
  check_quality args ;;
  pipeline env args.

(* ================================================================= *)
(** ** The sizing algorithm as the specification words it

    Section 4.2: compute the aspect ratio [r]; (2) tentative width 120 and
    tentative height [round (width * r)]; (3) if the tentative height is
    below 21, height 21 and width [round (height / r)]; (4) if the width
    is below 107, width 107 and height [round (width * r)].  The two floor
    corrections are applied once each, in this order. *)

Module Spec.

Definition aspect_ratio (source_width source_height : Z) : PyFloat.float :=
  PyFloat.rnd (inject_Z source_height / inject_Z source_width).

Definition times (n : Z) (r : PyFloat.float) : Z :=
  PyFloat.round (PyFloat.mul (PyFloat.of_int n) r).

Definition over (n : Z) (r : PyFloat.float) : Z :=
  PyFloat.round (PyFloat.rnd (PyFloat.of_int n / r)).

Definition width_first (r : PyFloat.float) : Z * Z :=
  (120, times 120 r).

Definition height_floor (r : PyFloat.float) (wh : Z * Z) : Z * Z :=
  if snd wh <? 21 then (over 21 r, 21) else wh.

Definition width_floor (r : PyFloat.float) (wh : Z * Z) : Z * Z :=
  if fst wh <? 107 then (107, times 107 r) else wh.


(** Section 6: a quality is the literal token "lossless" or an integer
    string in [1, 100]. *)
Definition quality_accepted (q : string) : Prop :=
  q = "lossless" \/ exists n, int_of_str q = Ok n /\ 1 <= n <= 100.

(** Section 4.3: "over" compositing of a source value [s] onto a
    destination value [d] under the weight [a / 255], to the nearest
    integer. *)
Definition alpha_over (a d s : Z) : Z :=
  (2 * (s * a + d * (255 - a)) + 255) / 510.

(** The algorithm without its step (4). *)
Definition sizing_without_width_floor (source_width source_height : Z)
  : Z * Z :=
  let r := aspect_ratio source_width source_height in
  height_floor r (width_first r).

End Spec.


(* ================================================================= *)
(** ** IEEE 754 binary64, from the Standard Library's reference
    implementation, to compare [PyFloat] with *)

Module Binary64.

Definition of_int (n : Z) : spec_float := binary_normalize 53 1024 n 0 false.

Definition mul : spec_float -> spec_float -> spec_float := SFmul 53 1024.
Definition div : spec_float -> spec_float -> spec_float := SFdiv 53 1024.

Definition to_Q (f : spec_float) : option Q :=
  match f with
  | S754_zero _ => Some 0%Q
  | S754_finite s m e =>
      Some (inject_Z (if s then Z.neg m else Z.pos m) * PyFloat.two ^ e)%Q
  | _ => None
  end.

Definition same (f : spec_float) (x : PyFloat.float) : bool :=
  match to_Q f with
  | Some q => Qeq_bool q x
  | None => false
  end.

(** The three float operations of [calc_watermark_size] on a source of
    size [w] x [h], and the scaling of an alpha value [h] by the float
    [h / w], computed both ways. *)
Definition agrees (w h : Z) : bool :=
  let r := div (of_int h) (of_int w) in
  let r' := PyFloat.rnd (inject_Z h / inject_Z w) in
  same r r'
  && same (mul (of_int 120) r) (PyFloat.mul (PyFloat.of_int 120) r')
  && same (mul (of_int 107) r) (PyFloat.mul (PyFloat.of_int 107) r')
  && same (div (of_int 21) r) (PyFloat.rnd (PyFloat.of_int 21 / r'))
  && same (mul (of_int h) r) (PyFloat.mul (PyFloat.of_int h) r').

Definition grid (n : nat) : list (Z * Z) :=
  list_prod (map Z.of_nat (seq 1 n)) (map Z.of_nat (seq 1 n)).

End Binary64.

(* ================================================================= *)
(** ** Vocabulary of the properties *)


Definition quality_error : string :=
  "ERROR: --quality debe ser 'lossless' o un número 1-100".

Definition no_images_error : string := "ERROR: Sin imágenes para generar PDF".


Definition not_the_error (ev : event) : Prop := ev <> EvStdout no_images_error.

(* ================================================================= *)
(** ** Sample data *)

(** A 4 x 3 opaque page, a 2 x 2 half-transparent watermark, and an
    outside world in which every file is that page, [pdftoppm] succeeds
    and resizing yields a flat raster of the requested size. *)
Definition sample_page : Image :=
  MkImage RGB 4 3 (fun _ _ => Pixel 200 100 50 255).

Definition sample_watermark : Image :=
  MkImage RGBA 2 2 (fun _ _ => Pixel 0 0 255 128).

Definition sample_env : Env :=
  MkEnv "/srv/app"
        (fun _ => true)
        (fun _ => Ok 0)
        (fun _ _ => [])
        (fun _ => Ok sample_page)
        (fun _ sz => MkImage RGBA (fst sz) (snd sz) (fun _ _ => Pixel 10 20 30 128))
        (fun _ => 0).

Definition sample_args (q : string) : Args :=
  MkArgs "sources/logo_colosal.png" q "output_watermarked.pdf".

(* ================================================================= *)
(** ** Vocabulary of the further properties *)

(** Ascending order of paths, as [sorted] compares them. *)
Definition path_le (a b : string) : Prop := String.leb a b = true.

(** The events that remove the temporaries, and those that create or
    write a file. *)
Definition is_cleanup (ev : event) : bool :=
  match ev with
  | EvUnlink _ | EvRmdir _ => true
  | _ => false
  end.

Definition is_file_output (ev : event) : bool :=
  match ev with
  | EvSaveImage _ _ _ _ | EvOpenWb _ | EvWritePdf _ _ => true
  | _ => false
  end.

(** The command line of line 80-84. *)
Definition pdftoppm_argv (pdf_path tmp_dir : string) : list string :=
  ["pdftoppm"; "-png"; "-r"; "72"; pdf_path; os_path_join tmp_dir "page"].

(** The path of line 127 for the image of index [i]. *)
Definition wm_path (tmp_dir ext : string) (i : Z) : string :=
  os_path_join tmp_dir (concat_str ["wm_"; format_03d i; "."; ext]).

(** The indices [i, i + 1, ..., i + n - 1]. *)
Definition indices (i : Z) (n : nat) : list Z :=
  map (fun k => i + Z.of_nat k) (seq 0 n).


(** The lines [main] prints before the extraction, and the line of
    line 177 for page [i] of [n]. *)
Definition banner (args : Args) : list event :=
  [EvStdout (String.append "  Logo:    " (logo args));
   EvStdout (String.append "  Calidad: " (quality args));
   EvStdout (String.append "  Salida:  " (output args));
   EvStdout "";
   EvStdout "[1/4] Extrayendo páginas del PDF..."].


(** The event of line 129 or 131 for the image [img] saved at [p]. *)
Definition saved (lossless : bool) (q : Z) (p : string) (img : Image) : event :=
  if lossless then EvSaveImage p "PNG" None img
  else EvSaveImage p "JPEG" (Some q) img.

(** The log of the loop of lines 126-132 on [images], and the paths it
    collects. *)
Definition wm_paths (tmp_dir ext : string) (n : nat) : list string :=
  map (wm_path tmp_dir ext) (indices 0 n).

Definition saves (lossless : bool) (q : Z) (tmp_dir : string)
  (images : list Image) : list event :=
  map (fun pi => saved lossless q (fst pi) (snd pi))
      (combine (wm_paths tmp_dir (if lossless then "png" else "jpg")
                  (List.length images)) images).

(** A computation that removes nothing: it extends the log with events
    other than [EvUnlink] and [EvRmdir]. *)
Definition keeps_temporaries {A : Type} (m : IO A) : Prop :=
  forall t, exists r new,
    m t = (r, t ++ new) /\ Forall (fun ev => is_cleanup ev = false) new.

(** The end of a successful run (lines 182-185). *)
Definition removal (env : Env) : list event :=
  map EvUnlink (glob env TMP_DIR "*")
  ++ [EvRmdir TMP_DIR; EvStdout "Listo. Temporales eliminados."].

(** A computation that removes the temporaries exactly when it returns,
    as its last act. *)
Definition removes_on_success (env : Env) (m : IO unit) : Prop :=
  forall t, exists r new,
    m t = (r, t ++ new) /\
    match r with
    | Ok _ => exists body,
        new = body ++ removal env /\ filter is_cleanup body = []
    | Raise _ => filter is_cleanup new = []
    end.

(* ================================================================= *)
(** * Properties *)

(* ================================================================= *)
(** ** Rounding to the nearest integer and to the nearest float *)

Import PyFloat.

Lemma rhe_cases (q : Q) :
  round_half_even q = Qnum q / Zpos (Qden q) \/
  (round_half_even q = Qnum q / Zpos (Qden q) + 1 /\
   Zpos (Qden q) <= 2 * (Qnum q mod Zpos (Qden q))).
Proof.
  unfold round_half_even.
  destruct (Z.ltb_spec (2 * (Qnum q mod Zpos (Qden q))) (Zpos (Qden q))); auto.
  destruct (Z.ltb_spec (Zpos (Qden q)) (2 * (Qnum q mod Zpos (Qden q)))).
  - right; lia.
  - destruct (Z.even _); [auto | right; lia].
Qed.

Lemma rhe_ge (c : Z) (q : Q) :
  (inject_Z c <= q)%Q -> c <= round_half_even q.
Proof.
  unfold Qle; simpl. intros H.
  assert (c <= Qnum q / Zpos (Qden q)).
  { apply Z.div_le_lower_bound; lia. }
  destruct (rhe_cases q) as [-> | [-> _]]; lia.
Qed.

Lemma rhe_le (c : Z) (q : Q) :
  (q <= inject_Z c)%Q -> round_half_even q <= c.
Proof.
  unfold Qle; simpl. intros H.
  pose proof (Z.div_mod (Qnum q) (Zpos (Qden q)) ltac:(lia)) as E.
  pose proof (Z.mod_pos_bound (Qnum q) (Zpos (Qden q)) ltac:(lia)) as B.
  destruct (rhe_cases q) as [-> | [-> K]]; nia.
Qed.

Lemma rhe_err (q : Q) :
  (Qabs (inject_Z (round_half_even q) - q) <= 1 # 2)%Q.
Proof.
  apply Qabs_Qle_condition.
  pose proof (Z.div_mod (Qnum q) (Zpos (Qden q)) ltac:(lia)) as E.
  pose proof (Z.mod_pos_bound (Qnum q) (Zpos (Qden q)) ltac:(lia)) as B.
  assert (K : round_half_even q = Qnum q / Zpos (Qden q) /\
              2 * (Qnum q mod Zpos (Qden q)) <= Zpos (Qden q) \/
              round_half_even q = Qnum q / Zpos (Qden q) + 1 /\
              Zpos (Qden q) <= 2 * (Qnum q mod Zpos (Qden q))).
  { unfold round_half_even.
    destruct (Z.ltb_spec (2 * (Qnum q mod Zpos (Qden q))) (Zpos (Qden q)));
      [left; lia|].
    destruct (Z.ltb_spec (Zpos (Qden q)) (2 * (Qnum q mod Zpos (Qden q))));
      [right; lia|].
    destruct (Z.even _); [left | right]; lia. }
  destruct q as [n d]; cbn [Qnum Qden] in *.
  set (f := n / Z.pos d) in *. set (r := n mod Z.pos d) in *.
  clearbody f r.
  unfold Qle, Qminus, Qplus, Qopp, inject_Z; cbn [Qnum Qden].
  destruct K as [[-> K] | [-> K]]; split; lia.
Qed.

Lemma two_pos : (0 < two)%Q.
Proof. reflexivity. Qed.

Lemma two_neq0 : ~ (two == 0)%Q.
Proof. discriminate. Qed.

Lemma pow2_pos (k : Z) : (0 < two ^ k)%Q.
Proof. apply Qpower_0_lt, two_pos. Qed.

Lemma inject_pow2 (k : Z) : 0 <= k -> (inject_Z (2 ^ k) == two ^ k)%Q.
Proof. intros; unfold two; now apply Zpower_Qpower. Qed.

Lemma mag_lower (q : Q) :
  ~ (q == 0)%Q -> (two ^ mag q <= Qabs q)%Q.
Proof.
  intros Hq. unfold mag.
  set (a := Z.log2 (Z.abs (Qnum q))).
  set (b := Z.log2 (Zpos (Qden q))).
  destruct (Qle_bool (two ^ (a - b)) (Qabs q)) eqn:E.
  - now apply Qle_bool_iff.
  - assert (Hn : 0 < Z.abs (Qnum q)).
    { destruct q as [n d]; unfold Qeq in Hq; simpl in *; lia. }
    pose proof (Z.log2_spec _ Hn) as [Ha _]. fold a in Ha.
    pose proof (Z.log2_spec (Zpos (Qden q)) ltac:(lia)) as [_ Hb]. fold b in Hb.
    assert (0 <= a) by apply Z.log2_nonneg.
    assert (0 <= b) by apply Z.log2_nonneg.
    replace (a - b - 1) with (a - (b + 1)) by lia.
    rewrite Qpower_minus by apply two_neq0.
    apply Qle_shift_div_r; [apply pow2_pos|].
    rewrite <- !inject_pow2 by lia.
    destruct q as [n d]; cbn [Qnum Qden] in *.
    unfold Qabs, Qle, Qmult, inject_Z; cbn [Qnum Qden].
    nia.
Qed.

Lemma scaled_lower (q : Q) :
  ~ (q == 0)%Q -> (two ^ 52 <= Qabs (scaled q))%Q.
Proof.
  intros Hq. unfold scaled, cexp. change (prec - 1) with 52.
  generalize 52; intros p.
  rewrite Qabs_Qmult.
  rewrite (Qabs_pos (two ^ _)) by (apply Qlt_le_weak, pow2_pos).
  replace (- (mag q - p)) with (p + - mag q) by lia.
  rewrite Qpower_plus by apply two_neq0.
  rewrite Qpower_opp.
  rewrite (Qmult_comm (two ^ p)), Qmult_assoc.
  rewrite <- (Qmult_1_l (two ^ p)) at 1.
  apply Qmult_le_compat_r; [|apply Qlt_le_weak, pow2_pos].
  apply Qle_shift_div_l; [apply pow2_pos|].
  rewrite Qmult_1_l. now apply mag_lower.
Qed.

Lemma Qnum_nonzero (q : Q) : ~ (q == 0)%Q -> (Qnum q =? 0) = false.
Proof.
  intros H. apply Z.eqb_neq. intros E. apply H.
  destruct q as [n d]; unfold Qeq; simpl in *; lia.
Qed.

Lemma rnd_nonzero_eq (q : Q) :
  ~ (q == 0)%Q ->
  rnd q = (inject_Z (round_half_even (scaled q)) * two ^ cexp q)%Q.
Proof. intros H. unfold rnd. now rewrite Qnum_nonzero. Qed.

Lemma scaled_back (q : Q) : (scaled q * two ^ cexp q == q)%Q.
Proof.
  unfold scaled. rewrite <- Qmult_assoc, <- Qpower_plus by apply two_neq0.
  replace (- cexp q + cexp q) with 0 by lia.
  rewrite Qpower_0_r. apply Qmult_1_r.
Qed.

Lemma scaled_pos (q : Q) : (0 < q)%Q -> (two ^ 52 <= scaled q)%Q.
Proof.
  intros H.
  assert (Hq : ~ (q == 0)%Q) by (intros E; rewrite E in H; discriminate).
  pose proof (scaled_lower q Hq) as L.
  rewrite Qabs_pos in L; [exact L|].
  unfold scaled. apply Qmult_le_0_compat;
    [now apply Qlt_le_weak | apply Qlt_le_weak, pow2_pos].
Qed.


Lemma mant_pos (q : Q) : (0 < q)%Q -> 2 ^ 52 <= round_half_even (scaled q).
Proof.
  intros H. apply rhe_ge. rewrite inject_pow2 by lia. now apply scaled_pos.
Qed.


Lemma rnd_pos (q : Q) : (0 < q)%Q -> (0 < rnd q)%Q.
Proof.
  intros H.
  rewrite rnd_nonzero_eq by (intros E; rewrite E in H; discriminate).
  apply Qmult_lt_0_compat; [|apply pow2_pos].
  pose proof (mant_pos q H).
  unfold Qlt, inject_Z; simpl. lia.
Qed.


Lemma rnd_zero (q : Q) : (q == 0)%Q -> rnd q = 0%Q.
Proof.
  intros H. unfold rnd.
  replace (Qnum q =? 0) with true; [reflexivity|].
  symmetry. apply Z.eqb_eq.
  destruct q as [n d]; unfold Qeq in H; simpl in *; lia.
Qed.


Lemma pow2_ge_2 (e : Z) : 1 <= e -> (two <= two ^ e)%Q.
Proof.
  intros. rewrite <- (Qpower_1_r two) at 1.
  apply Qpower_le_compat_l; [assumption | discriminate].
Qed.

Lemma rnd_ge (c : Z) (q : Q) :
  0 < c <= 2 ^ 53 -> (inject_Z c <= q)%Q -> (inject_Z c <= rnd q)%Q.
Proof.
  intros Hc H.
  assert (Q0 : (0 < q)%Q).
  { apply Qlt_le_trans with (inject_Z c); [|assumption].
    unfold Qlt, inject_Z; simpl; lia. }
  rewrite rnd_nonzero_eq by (intros E; rewrite E in Q0; discriminate).
  destruct (Z_le_gt_dec (cexp q) 0) as [E | E].
  - assert (M : c * 2 ^ (- cexp q) <= round_half_even (scaled q)).
    { apply rhe_ge. rewrite inject_Z_mult, inject_pow2 by lia.
      unfold scaled. apply Qmult_le_compat_r; [assumption|].
      apply Qlt_le_weak, pow2_pos. }
    apply Qle_trans with (inject_Z (c * 2 ^ (- cexp q)) * two ^ cexp q)%Q.
    + rewrite inject_Z_mult, inject_pow2 by lia.
      rewrite <- Qmult_assoc, <- Qpower_plus by apply two_neq0.
      replace (- cexp q + cexp q) with 0 by lia.
      rewrite Qpower_0_r, Qmult_1_r. apply Qle_refl.
    + apply Qmult_le_compat_r; [|apply Qlt_le_weak, pow2_pos].
      rewrite <- Zle_Qle. exact M.
  - pose proof (mant_pos q Q0) as M.
    apply Qle_trans with (inject_Z (2 ^ 52) * two)%Q.
    + change (inject_Z (2 ^ 52) * two)%Q with (inject_Z (2 ^ 53)).
      rewrite <- Zle_Qle. lia.
    + apply Qle_trans with (inject_Z (round_half_even (scaled q)) * two)%Q.
      * apply Qmult_le_compat_r; [|discriminate]. now rewrite <- Zle_Qle.
      * apply Qmult_le_l.
        -- unfold Qlt, inject_Z; simpl. lia.
        -- apply pow2_ge_2. lia.
Qed.

Lemma rnd_le (c : Z) (q : Q) :
  0 < c <= 2 ^ 53 -> (0 < q)%Q -> (q <= inject_Z c)%Q -> (rnd q <= inject_Z c)%Q.
Proof.
  intros Hc Q0 H.
  rewrite rnd_nonzero_eq by (intros E; rewrite E in Q0; discriminate).
  pose proof (scaled_back q) as B.
  pose proof (scaled_pos q Q0) as S.
  pose proof (pow2_pos (cexp q)) as P.
  destruct (Z_le_gt_dec (cexp q) 0) as [E | E].
  - assert (M : round_half_even (scaled q) <= c * 2 ^ (- cexp q)).
    { apply rhe_le. rewrite inject_Z_mult, inject_pow2 by lia.
      unfold scaled. apply Qmult_le_compat_r; [assumption|].
      apply Qlt_le_weak, pow2_pos. }
    apply Qle_trans with (inject_Z (c * 2 ^ (- cexp q)) * two ^ cexp q)%Q.
    + apply Qmult_le_compat_r; [|now apply Qlt_le_weak].
      rewrite <- Zle_Qle. exact M.
    + rewrite inject_Z_mult, inject_pow2 by lia.
      rewrite <- Qmult_assoc, <- Qpower_plus by apply two_neq0.
      replace (- cexp q + cexp q) with 0 by lia.
      rewrite Qpower_0_r, Qmult_1_r. apply Qle_refl.
  - (* the exponent is positive: q is at least 2^53, hence q = c = 2^53 *)
    pose proof (pow2_ge_2 (cexp q) ltac:(lia)) as G.
    assert (C53 : (inject_Z c <= two ^ 52 * two)%Q).
    { change (two ^ 52 * two)%Q with (inject_Z (2 ^ 53)).
      rewrite <- Zle_Qle. lia. }
    assert (L1 : (two ^ 52 * two ^ cexp q <= scaled q * two ^ cexp q)%Q).
    { apply Qmult_le_compat_r; [assumption | now apply Qlt_le_weak]. }
    assert (L2 : (two ^ 52 * two <= two ^ 52 * two ^ cexp q)%Q).
    { apply Qmult_le_l; [apply pow2_pos | assumption]. }
    assert (Eq1 : (two ^ 52 * two ^ cexp q == scaled q * two ^ cexp q)%Q) by lra.
    assert (Eq2 : (two ^ 52 * two == two ^ 52 * two ^ cexp q)%Q) by lra.
    assert (Es : (scaled q == two ^ 52)%Q).
    { apply Qmult_inj_r in Eq1; [now symmetry | lra]. }
    assert (Em : round_half_even (scaled q) = 2 ^ 52).
    { apply Z.le_antisymm.
      - apply rhe_le. rewrite inject_pow2 by lia. lra.
      - apply rhe_ge. rewrite inject_pow2 by lia. lra. }
    rewrite Em, inject_pow2 by lia. lra.
Qed.

Lemma rnd_exact (c : Z) : 0 <= c <= 2 ^ 53 -> (rnd (inject_Z c) == inject_Z c)%Q.
Proof.
  intros Hc. destruct (Z.eq_dec c 0) as [-> | N]; [reflexivity|].
  apply Qle_antisym.
  - apply rnd_le; [lia | | apply Qle_refl].
    unfold Qlt, inject_Z; simpl; lia.
  - apply rnd_ge; [lia | apply Qle_refl].
Qed.

Lemma rnd_relerr (q : Q) :
  (Qabs (rnd q - q) <= Qabs q * two ^ (- 53))%Q.
Proof.
  destruct (Qeq_dec q 0) as [Z0 | NZ].
  - rewrite (rnd_zero q Z0). rewrite Z0. discriminate.
  - rewrite rnd_nonzero_eq by assumption.
    pose proof (scaled_back q) as B.
    pose proof (scaled_lower q NZ) as S.
    pose proof (pow2_pos (cexp q)) as P.
    pose proof (rhe_err (scaled q)) as R.
    set (e := cexp q) in *. set (s := scaled q) in *.
    set (m := inject_Z (round_half_even s)) in *.
    clearbody m s e. rewrite <- B.
    assert (E1 : (m * two ^ e - s * two ^ e == (m - s) * two ^ e)%Q) by ring.
    rewrite E1, !Qabs_Qmult, (Qabs_pos (two ^ e)) by lra.
    rewrite <- Qmult_assoc, (Qmult_comm (two ^ e)), Qmult_assoc.
    apply Qmult_le_compat_r; [|lra].
    apply Qle_trans with (1 # 2)%Q; [exact R|].
    apply Qle_trans with (two ^ 52 * two ^ (- 53))%Q; [discriminate|].
    apply Qmult_le_compat_r; [exact S | discriminate].
Qed.

Lemma trunc_bounds (c : Z) (x : Q) :
  (0 <= x)%Q -> (x <= inject_Z c)%Q -> 0 <= trunc x <= c.
Proof.
  unfold Qle, trunc; destruct x as [n d]; simpl. intros H0 H1.
  rewrite Z.quot_div_nonneg by lia. split.
  - apply Z.div_pos; lia.
  - apply Z.div_le_upper_bound; lia.
Qed.

Lemma trunc_int (c : Z) (x : Q) : (x == inject_Z c)%Q -> trunc x = c.
Proof.
  unfold Qeq, trunc; destruct x as [n d]; simpl. intros H.
  replace n with (c * Z.pos d) by lia.
  apply Z.quot_mul. lia.
Qed.

Lemma round_int (c : Z) (x : Q) : (x == inject_Z c)%Q -> round x = c.
Proof.
  intros H. unfold round. apply Z.le_antisymm.
  - apply rhe_le. rewrite H. apply Qle_refl.
  - apply rhe_ge. rewrite H. apply Qle_refl.
Qed.

(** *** The rounding is to 53 bits, to nearest, ties to even *)

Lemma mag_upper (q : Q) :
  ~ (q == 0)%Q -> (Qabs q < two ^ (mag q + 1))%Q.
Proof.
  intros Hq. unfold mag.
  set (a := Z.log2 (Z.abs (Qnum q))).
  set (b := Z.log2 (Zpos (Qden q))).
  destruct (Qle_bool (two ^ (a - b)) (Qabs q)) eqn:E.
  - assert (Hn : 0 < Z.abs (Qnum q)).
    { destruct q as [n d]; unfold Qeq in Hq; simpl in *; lia. }
    pose proof (Z.log2_spec _ Hn) as [_ Ha]. fold a in Ha.
    pose proof (Z.log2_spec (Zpos (Qden q)) ltac:(lia)) as [Hb _]. fold b in Hb.
    assert (0 <= a) by apply Z.log2_nonneg.
    assert (0 <= b) by apply Z.log2_nonneg.
    replace (a - b + 1) with ((a + 1) - b) by lia.
    rewrite Qpower_minus by apply two_neq0.
    apply Qlt_shift_div_l; [apply pow2_pos|].
    rewrite <- !inject_pow2 by lia.
    destruct q as [n d]; cbn [Qnum Qden] in *.
    unfold Qabs, Qlt, Qmult, inject_Z; cbn [Qnum Qden].
    rewrite <- Z.add_1_r in Ha. nia.
  - replace (a - b - 1 + 1) with (a - b) by lia.
    apply Qnot_le_lt. intros K. apply Qle_bool_iff in K. congruence.
Qed.

(** The significand has at most 53 bits. *)
Lemma scaled_upper (q : Q) :
  ~ (q == 0)%Q -> (Qabs (scaled q) < two ^ 53)%Q.
Proof.
  intros Hq. unfold scaled, cexp. change (prec - 1) with 52.
  rewrite Qabs_Qmult.
  rewrite (Qabs_pos (two ^ _)) by (apply Qlt_le_weak, pow2_pos).
  pose proof (mag_upper q Hq) as U.
  replace (mag q + 1) with (53 + (mag q - 52)) in U by lia.
  rewrite Qpower_plus in U by apply two_neq0.
  replace (- (mag q - 52)) with (- (mag q - 52))%Z by reflexivity.
  rewrite Qpower_opp.
  apply Qlt_shift_div_r; [apply pow2_pos | exact U].
Qed.

Lemma significand_bound (q : Q) :
  ~ (q == 0)%Q -> 2 ^ 52 <= Z.abs (round_half_even (scaled q)) <= 2 ^ 53.
Proof.
  intros Hq.
  pose proof (scaled_lower q Hq) as L. pose proof (scaled_upper q Hq) as U.
  destruct (Qlt_le_dec (scaled q) 0) as [N | P].
  - rewrite Qabs_neg in L, U by now apply Qlt_le_weak.
    assert (round_half_even (scaled q) <= - 2 ^ 52).
    { apply rhe_le. rewrite inject_Z_opp, inject_pow2 by lia. lra. }
    assert (- 2 ^ 53 <= round_half_even (scaled q)).
    { apply rhe_ge. rewrite inject_Z_opp, inject_pow2 by lia. lra. }
    lia.
  - rewrite Qabs_pos in L, U by assumption.
    assert (2 ^ 52 <= round_half_even (scaled q)).
    { apply rhe_ge. rewrite inject_pow2 by lia. lra. }
    assert (round_half_even (scaled q) <= 2 ^ 53).
    { apply rhe_le. rewrite inject_pow2 by lia. lra. }
    lia.
Qed.

(** A tie goes to the even neighbour. *)
Lemma rhe_tie_even (q : Q) :
  2 * (Qnum q mod Zpos (Qden q)) = Zpos (Qden q) ->
  Z.even (round_half_even q) = true.
Proof.
  intros T. unfold round_half_even. rewrite T, Z.ltb_irrefl.
  destruct (Z.even (Qnum q / Z.pos (Qden q))) eqn:E; [exact E|].
  rewrite Z.even_add, E. reflexivity.
Qed.

(* ================================================================= *)
(** ** The sizing algorithm *)

Lemma inject_Z_pos (c : Z) : 0 < c -> (0 < inject_Z c)%Q.
Proof. intros. unfold Qlt, inject_Z; simpl. lia. Qed.

Lemma inject_Z_nonneg (c : Z) : 0 <= c -> (0 <= inject_Z c)%Q.
Proof. intros. unfold Qle, inject_Z; simpl. lia. Qed.

Lemma of_int_exact (c : Z) : 0 <= c <= 2 ^ 53 -> (of_int c == inject_Z c)%Q.
Proof. apply rnd_exact. Qed.

Lemma int_truediv_pos (a b : Z) :
  1 <= a -> 1 <= b ->
  exists ratio, int_truediv a b = Ok ratio /\ (0 < ratio)%Q /\
                ratio = rnd (inject_Z a / inject_Z b).
Proof.
  intros Ha Hb. unfold int_truediv.
  destruct (Z.eqb_spec b 0); [lia|].
  eexists; split; [reflexivity|]. split; [|reflexivity].
  apply rnd_pos. apply Qlt_shift_div_l.
  - apply inject_Z_pos; lia.
  - rewrite Qmult_0_l. apply inject_Z_pos; lia.
Qed.

Lemma div_pos (x y : float) :
  (0 < y)%Q -> div x y = Ok (rnd (x / y)).
Proof.
  intros H. unfold div.
  destruct (Z.eqb_spec (Qnum y) 0) as [E | E]; [|reflexivity].
  exfalso. destruct y as [n d]; unfold Qlt in H; simpl in *; lia.
Qed.

(** A product that reaches an integer threshold still reaches it after the
    two roundings. *)
Lemma round_mul_ge (c n : Z) (r : float) :
  0 < c <= 2 ^ 53 -> 0 <= n <= 2 ^ 53 ->
  (inject_Z c <= inject_Z n * r)%Q ->
  c <= round (mul (of_int n) r).
Proof.
  intros Hc Hn H. unfold round, mul.
  apply rhe_ge, rnd_ge; [assumption|].
  now rewrite of_int_exact.
Qed.

Lemma round_div_ge (c n : Z) (r : float) :
  0 < c <= 2 ^ 53 -> 0 <= n <= 2 ^ 53 -> (0 < r)%Q ->
  (inject_Z c * r <= inject_Z n)%Q ->
  c <= round (rnd (of_int n / r)).
Proof.
  intros Hc Hn Hr H. unfold round.
  apply rhe_ge, rnd_ge; [assumption|].
  rewrite of_int_exact by assumption.
  now apply Qle_shift_div_l.
Qed.

(** The state at line 69 for a source of positive size: either the
    tentative height was kept, or the height floor fired and the width was
    recomputed, and then it is at least 120. *)
Lemma size_after_height_floor_cases (orig_w orig_h : Z) :
  1 <= orig_w -> 1 <= orig_h ->
  exists ratio new_w new_h,
    int_truediv orig_h orig_w = Ok ratio /\
    (0 < ratio)%Q /\
    size_after_height_floor orig_w orig_h = Ok (ratio, new_w, new_h) /\
    let tentative := round (mul (of_int WM_MAX_W) ratio) in
    ((WM_MIN_H <= tentative /\ new_w = WM_MAX_W /\ new_h = tentative) \/
     (tentative < WM_MIN_H /\ new_h = WM_MIN_H /\
      div (of_int WM_MIN_H) ratio = Ok (rnd (of_int WM_MIN_H / ratio)) /\
      new_w = round (rnd (of_int WM_MIN_H / ratio)) /\
      WM_MAX_W <= new_w)).
Proof.
  intros Hw Hh.
  destruct (int_truediv_pos orig_h orig_w Hh Hw) as (ratio & E & P & _).
  unfold size_after_height_floor. rewrite E. cbn [rbind].
  set (tentative := round (mul (of_int WM_MAX_W) ratio)).
  destruct (Z.ltb_spec tentative WM_MIN_H) as [L | G].
  - rewrite (div_pos _ _ P). cbn [rbind].
    exists ratio, (round (rnd (of_int WM_MIN_H / ratio))), WM_MIN_H.
    repeat split; try assumption. right. repeat split; try assumption.
    + apply div_pos, P.
    + apply round_div_ge; try assumption; unfold WM_MAX_W, WM_MIN_H; try lia.
      destruct (Qlt_le_dec (inject_Z 21) (inject_Z 120 * ratio)) as [K | K];
        [|exact K].
      exfalso.
      assert (21 <= tentative); [|unfold WM_MIN_H in L; lia].
      apply round_mul_ge; unfold WM_MAX_W; try lia. now apply Qlt_le_weak.
  - exists ratio, WM_MAX_W, tentative. repeat split; try assumption.
    left. repeat split; assumption.
Qed.

(** *** Accuracy of the recomputed dimension *)

Lemma Qabs_le_iff (x y : Q) : (Qabs x <= y <-> - y <= x /\ x <= y)%Q.
Proof. apply Qabs_Qle_condition. Qed.

Lemma rnd_near (q : Q) :
  (0 <= q)%Q ->
  (q - q * (1 # 9007199254740992) <= rnd q /\
   rnd q <= q + q * (1 # 9007199254740992))%Q.
Proof.
  intros H. pose proof (rnd_relerr q) as R.
  rewrite (Qabs_pos q) in R by assumption.
  change (two ^ (- 53))%Q with (1 # 9007199254740992)%Q in R.
  apply Qabs_le_iff in R. lra.
Qed.





(** *** The claims on [calc_watermark_size] *)

Lemma width_floor_keeps (ratio : float) (new_w new_h : Z) :
  WM_MIN_W <= new_w -> width_floor (ratio, new_w, new_h) = (new_w, new_h).
Proof.
  intros H. unfold width_floor.
  destruct (Z.ltb_spec new_w WM_MIN_W); [lia | reflexivity].
Qed.

Lemma calc_of_state (orig_w orig_h : Z) (ratio : float) (new_w new_h : Z) :
  size_after_height_floor orig_w orig_h = Ok (ratio, new_w, new_h) ->
  WM_MIN_W <= new_w ->
  calc_watermark_size orig_w orig_h = Ok (new_w, new_h).
Proof.
  intros E H. unfold calc_watermark_size. rewrite E. cbn [rbind].
  now rewrite width_floor_keeps.
Qed.

(** The result on a source of positive size, by the case that produced
    it. *)
Lemma calc_watermark_size_cases (orig_w orig_h : Z) :
  1 <= orig_w -> 1 <= orig_h ->
  exists ratio,
    int_truediv orig_h orig_w = Ok ratio /\
    ratio = rnd (inject_Z orig_h / inject_Z orig_w) /\
    (0 < inject_Z orig_h / inject_Z orig_w)%Q /\
    let tentative := round (mul (of_int 120) ratio) in
    let recomputed := round (rnd (of_int 21 / ratio)) in
    (21 <= tentative /\
     calc_watermark_size orig_w orig_h = Ok (120, tentative))
    \/
    (tentative < 21 /\ 120 <= recomputed /\
     div (of_int 21) ratio = Ok (rnd (of_int 21 / ratio)) /\
     calc_watermark_size orig_w orig_h = Ok (recomputed, 21)).
Proof.
  intros Hw Hh.
  destruct (size_after_height_floor_cases orig_w orig_h Hw Hh)
    as (ratio & w & h & E & P & St & C).
  exists ratio. split; [exact E|]. split.
  { destruct (int_truediv_pos orig_h orig_w Hh Hw) as (r' & E' & _ & ->).
    congruence. }
  split.
  { apply Qlt_shift_div_l; [apply inject_Z_pos; lia|].
    rewrite Qmult_0_l. apply inject_Z_pos; lia. }
  unfold WM_MAX_W, WM_MIN_H in C. cbv zeta in *.
  destruct C as [(T & -> & ->) | (T & -> & D & -> & G)]; [left | right].
  - split; [exact T|].
    apply (calc_of_state _ _ _ _ _ St). unfold WM_MIN_W. lia.
  - repeat split; try assumption.
    apply (calc_of_state _ _ _ _ _ St). unfold WM_MIN_W. lia.
Qed.




(** No size of the aspect ratio of a 1000 x 50 logo has both a width of at
    most [WM_MAX_W] and a height of at least [WM_MIN_H]: on wide logos the
    bounds cannot all hold, and the script lets the height floor win. *)
Remark wide_logo_bounds_conflict (w h : Z) :
  w <= WM_MAX_W -> WM_MIN_H <= h -> 1000 < 2 * Z.abs (h * 1000 - w * 50).
Proof. unfold WM_MAX_W, WM_MIN_H. lia. Qed.











(* ================================================================= *)
(** ** The opacity step *)

Lemma lookup_table_nth (f : Z -> Z) (p : Z) :
  0 <= p <= 255 -> nth (Z.to_nat p) (lookup_table f) 0 = clip8 (f p).
Proof.
  intros Hp. unfold lookup_table.
  rewrite (nth_indep _ 0 (clip8 (f (Z.of_nat 0))))
    by (rewrite length_map, length_seq; lia).
  rewrite (map_nth (fun i => clip8 (f (Z.of_nat i)))).
  rewrite seq_nth by lia. now rewrite Nat.add_0_l, Z2Nat.id by lia.
Qed.

Lemma clip8_id (v : Z) : 0 <= v <= 255 -> clip8 v = v.
Proof. unfold clip8. lia. Qed.

(** The scaled alpha lies between 0 and the alpha it comes from. *)
Lemma scale_alpha_bounds (opacity : float) (p : Z) :
  (0 <= opacity)%Q -> (opacity <= 1)%Q -> 0 <= p <= 255 ->
  0 <= scale_alpha opacity p <= p.
Proof.
  intros O0 O1 Hp. unfold scale_alpha, mul.
  assert (E : (of_int p == inject_Z p)%Q) by (apply of_int_exact; lia).
  assert (P0 : (0 <= inject_Z p)%Q) by (apply inject_Z_nonneg; lia).
  assert (X0 : (0 <= of_int p * opacity)%Q).
  { rewrite E. now apply Qmult_le_0_compat. }
  assert (X1 : (of_int p * opacity <= inject_Z p)%Q).
  { rewrite E. set (N := inject_Z p) in *. clearbody N. nra. }
  apply Qle_lt_or_eq in X0. destruct X0 as [X0 | X0].
  - apply trunc_bounds.
    + apply Qlt_le_weak, rnd_pos, X0.
    + apply rnd_le; [|exact X0 | exact X1].
      assert (0 < p); [|lia].
      destruct (Z.eq_dec p 0) as [-> | N]; [|lia].
      exfalso. rewrite E in X0.
      change (inject_Z 0) with 0%Q in X0. lra.
  - rewrite rnd_zero by (now symmetry). cbn. lia.
Qed.

(** Full opacity leaves alpha as it is. *)
Lemma scale_alpha_one (opacity : float) (p : Z) :
  (opacity == 1)%Q -> 0 <= p <= 255 -> scale_alpha opacity p = p.
Proof.
  intros O Hp. unfold scale_alpha, mul.
  assert (E : (of_int p * opacity == inject_Z p)%Q).
  { rewrite O, Qmult_1_r. apply of_int_exact; lia. }
  destruct (Z.eq_dec p 0) as [-> | N].
  - rewrite rnd_zero by exact E. reflexivity.
  - apply trunc_int. apply Qle_antisym.
    + apply rnd_le; [lia | | rewrite E; apply Qle_refl].
      rewrite E. apply inject_Z_pos; lia.
    + apply rnd_ge; [lia | rewrite E; apply Qle_refl].
Qed.

Lemma trunc_near (x : Q) :
  (0 <= x)%Q -> (x - 1 < inject_Z (trunc x) /\ inject_Z (trunc x) <= x)%Q.
Proof.
  destruct x as [n d]. unfold Qle, Qlt, Qminus, Qplus, Qopp, trunc, inject_Z.
  cbn [Qnum Qden]. intros H.
  rewrite Z.quot_div_nonneg by lia.
  pose proof (Z.div_mod n (Z.pos d) ltac:(lia)) as E.
  pose proof (Z.mod_pos_bound n (Z.pos d) ltac:(lia)) as B.
  set (f := n / Z.pos d) in *. set (r := n mod Z.pos d) in *.
  clearbody f r. nia.
Qed.

(** The scaled alpha is the product of alpha and opacity cut to an
    integer: at most the product and less than one below it, up to the
    rounding of the float product. *)
Lemma scale_alpha_accuracy (opacity : float) (p : Z) :
  (0 <= opacity)%Q -> 0 <= p <= 255 ->
  let exact := (inject_Z p * opacity)%Q in
  (exact - exact * (1 # 9007199254740992) - 1 < inject_Z (scale_alpha opacity p)
   /\ inject_Z (scale_alpha opacity p) <= exact + exact * (1 # 9007199254740992))%Q.
Proof.
  intros O0 Hp. cbv zeta. unfold scale_alpha, mul.
  assert (E : (of_int p == inject_Z p)%Q) by (apply of_int_exact; lia).
  assert (P0 : (0 <= inject_Z p)%Q) by (apply inject_Z_nonneg; lia).
  assert (X0 : (0 <= of_int p * opacity)%Q).
  { rewrite E. now apply Qmult_le_0_compat. }
  destruct (rnd_near _ X0) as [R1 R2].
  assert (F0 : (0 <= rnd (of_int p * opacity))%Q).
  { apply Qle_lt_or_eq in X0. destruct X0 as [X0 | X0].
    - apply Qlt_le_weak, rnd_pos, X0.
    - rewrite rnd_zero by (now symmetry). apply Qle_refl. }
  destruct (trunc_near _ F0) as [T1 T2].
  assert (EX : (of_int p * opacity == inject_Z p * opacity)%Q) by now rewrite E.
  set (fl := rnd (of_int p * opacity)) in *. clearbody fl.
  set (x := (of_int p * opacity)%Q) in *. clearbody x.
  lra.
Qed.

(* ================================================================= *)
(** ** Compositing *)

Lemma div255_nearest (a : Z) :
  0 <= a <= 65025 -> div255 a = (2 * a + 255) / 510.
Proof.
  intros H. unfold div255. cbv zeta.
  rewrite !Z.shiftr_div_pow2 by lia. change (2 ^ 8) with 256.
  Z.div_mod_to_equations. lia.
Qed.

Lemma blend_alpha_over (mask in1 in2 : Z) :
  0 <= mask <= 255 -> 0 <= in1 <= 255 -> 0 <= in2 <= 255 ->
  blend mask in1 in2 = Spec.alpha_over mask in1 in2.
Proof.
  intros Hm H1 H2. unfold blend, Spec.alpha_over.
  rewrite div255_nearest by nia.
  f_equal. ring.
Qed.

(** [alpha_over] is the integer nearest to the weighted mean; weight 0
    keeps the destination and weight 255 takes the source. *)
Lemma alpha_over_nearest (a d s : Z) :
  0 <= a <= 255 -> 0 <= d <= 255 -> 0 <= s <= 255 ->
  2 * Z.abs (255 * Spec.alpha_over a d s - (s * a + d * (255 - a))) < 255 /\
  0 <= Spec.alpha_over a d s <= 255 /\
  (a = 0 -> Spec.alpha_over a d s = d) /\
  (a = 255 -> Spec.alpha_over a d s = s).
Proof.
  intros Ha Hd Hs. unfold Spec.alpha_over.
  assert (0 <= s * a + d * (255 - a) <= 65025) by nia.
  set (X := s * a + d * (255 - a)) in *.
  assert (EX0 : a = 0 -> X = d * 255) by (intros ->; unfold X; lia).
  assert (EX1 : a = 255 -> X = s * 255) by (intros ->; unfold X; lia).
  clearbody X.
  Z.div_mod_to_equations. lia.
Qed.

Lemma convert_size (m : mode) (im : Image) :
  width (convert m im) = width im /\ height (convert m im) = height im.
Proof. unfold convert. destruct m, (im_mode im); split; reflexivity. Qed.


Lemma convert_colour (m : mode) (im : Image) (x y : Z) :
  red (getpixel (convert m im) x y) = red (getpixel im x y) /\
  green (getpixel (convert m im) x y) = green (getpixel im x y) /\
  blue (getpixel (convert m im) x y) = blue (getpixel im x y).
Proof.
  unfold convert. destruct m, (im_mode im); repeat split; reflexivity.
Qed.


(** The run of [apply_watermark] on a page that opens. *)
Lemma apply_watermark_result (env : Env) (page_path : string)
  (watermark opened : Image) (t : list event) :
  image_open env page_path = Ok opened ->
  apply_watermark env page_path watermark t
  = (Ok (convert RGB
           (paste (convert RGBA opened) watermark
              (width opened - width watermark - 0,
               height opened - height watermark - 0) watermark)), t).
Proof.
  intros E. unfold apply_watermark, bind, lift, ret. rewrite E.
  unfold size, WM_MARGIN.
  destruct (convert_size RGBA opened) as [-> ->]. reflexivity.
Qed.


(** C7. On a page at least as large as the watermark, a pixel of the
    composited page outside the rectangle
    [[page_width - wm_width, page_width) x [page_height - wm_height,
    page_height)] has the colour of the same pixel of the source page, and
    a pixel inside it is the watermark pixel composited "over" the page
    pixel, weighted by the alpha of the watermark pixel. *)
Theorem apply_watermark_pixels (env : Env) (page_path : string)
  (watermark opened : Image) (t : list event) :
  image_open env page_path = Ok opened ->
  image_8bit opened -> image_8bit watermark ->
  width watermark <= width opened -> height watermark <= height opened ->
  exists out,
    apply_watermark env page_path watermark t = (Ok out, t) /\
    forall x y : Z,
      0 <= x < width opened -> 0 <= y < height opened ->
      let x0 := width opened - width watermark in
      let y0 := height opened - height watermark in
      let d := getpixel opened x y in
      let o := getpixel out x y in
      if (x0 <=? x) && (y0 <=? y) then
        let s := getpixel watermark (x - x0) (y - y0) in
        red o = Spec.alpha_over (alpha s) (red d) (red s) /\
        green o = Spec.alpha_over (alpha s) (green d) (green s) /\
        blue o = Spec.alpha_over (alpha s) (blue d) (blue s) /\
        2 * Z.abs (255 * red o
                   - (red s * alpha s + red d * (255 - alpha s))) < 255 /\
        2 * Z.abs (255 * green o
                   - (green s * alpha s + green d * (255 - alpha s))) < 255 /\
        2 * Z.abs (255 * blue o
                   - (blue s * alpha s + blue d * (255 - alpha s))) < 255
      else
        red o = red d /\ green o = green d /\ blue o = blue d.
Proof.
  intros E Wp Wm Hw Hh.
  eexists.
  split; [exact (apply_watermark_result env page_path watermark opened t E)|].
  intros x y Hx Hy. cbv zeta.
  destruct (convert_colour RGB
              (paste (convert RGBA opened) watermark
                 (width opened - width watermark - 0,
                  height opened - height watermark - 0) watermark) x y)
    as (-> & -> & ->).
  cbn [paste getpixel].
  replace (width opened - width watermark - 0)
    with (width opened - width watermark) by lia.
  replace (height opened - height watermark - 0)
    with (height opened - height watermark) by lia.
  set (x0 := width opened - width watermark).
  set (y0 := height opened - height watermark).
  assert (B : in_box x0 y0 (width watermark) (height watermark) x y
              = (x0 <=? x) && (y0 <=? y)).
  { unfold in_box.
    replace (x <? x0 + width watermark) with true
      by (symmetry; apply Z.ltb_lt; unfold x0; lia).
    replace (y <? y0 + height watermark) with true
      by (symmetry; apply Z.ltb_lt; unfold y0; lia).
    now rewrite !andb_true_r. }
  rewrite B.
  destruct (convert_colour RGBA opened x y) as (Cr & Cg & Cb).
  destruct ((x0 <=? x) && (y0 <=? y)).
  - cbn [blend_pixel red green blue]. rewrite Cr, Cg, Cb.
    destruct (Wp x y) as (Dr & Dg & Db & _).
    destruct (Wm (x - x0) (y - y0)) as (Sr & Sg & Sb & Sa).
    unfold is_8bit in *.
    rewrite !blend_alpha_over by assumption.
    repeat split; try reflexivity;
      apply alpha_over_nearest; assumption.
  - now rewrite Cr, Cg, Cb.
Qed.

(** The pixels after the opacity step (lines 98-100). *)
Lemma apply_opacity_pixel (logo : Image) (opacity : float) (x y : Z) :
  (0 <= opacity)%Q -> (opacity <= 1)%Q ->
  is_8bit (alpha (getpixel logo x y)) ->
  getpixel (apply_opacity logo opacity) x y =
  Pixel (red (getpixel logo x y)) (green (getpixel logo x y))
        (blue (getpixel logo x y))
        (scale_alpha opacity (alpha (getpixel logo x y))).
Proof.
  intros O0 O1 A. unfold apply_opacity, split, point, merge_RGBA.
  cbn [getpixel band_get]. f_equal.
  rewrite lookup_table_nth by exact A.
  apply clip8_id.
  pose proof (scale_alpha_bounds opacity _ O0 O1 A). unfold is_8bit in A. lia.
Qed.

(** C8. For an opacity in [0.0, 1.0], [prepare_watermark] gives every pixel
    of the resized logo the alpha [int (alpha * opacity)], its own alpha
    scaled by the opacity (between 0 and the alpha it had, within one unit
    of the product, unchanged at opacity 1.0), and leaves its red, green
    and blue values as they are. *)
Theorem prepare_watermark_scales_alpha (env : Env) (logo_path : string)
  (opacity : float) (opened : Image) (t : list event) :
  (0 <= opacity)%Q -> (opacity <= 1)%Q ->
  image_open env logo_path = Ok opened ->
  1 <= width opened -> 1 <= height opened ->
  (forall im sz, image_8bit (resize_lanczos env im sz)) ->
  exists new_w new_h t',
    calc_watermark_size (width opened) (height opened) = Ok (new_w, new_h) /\
    let resized := resize_lanczos env (convert RGBA opened) (new_w, new_h) in
    let out := apply_opacity resized opacity in
    prepare_watermark env logo_path opacity t = (Ok out, t') /\
    forall x y : Z,
      let p := getpixel resized x y in
      let p' := getpixel out x y in
      red p' = red p /\ green p' = green p /\ blue p' = blue p /\
      alpha p' = trunc (mul (of_int (alpha p)) opacity) /\
      0 <= alpha p' <= alpha p /\
      (let exact := (inject_Z (alpha p) * opacity)%Q in
       exact - exact * (1 # 9007199254740992) - 1 < inject_Z (alpha p') /\
       inject_Z (alpha p') <= exact + exact * (1 # 9007199254740992))%Q /\
      ((opacity == 1)%Q -> alpha p' = alpha p).
Proof.
  intros O0 O1 E Hw Hh R8.
  assert (C : exists new_w new_h,
             calc_watermark_size (width opened) (height opened)
             = Ok (new_w, new_h)).
  { destruct (calc_watermark_size_cases (width opened) (height opened) Hw Hh)
      as (ratio & _ & _ & _ & [(_ & K) | (_ & _ & _ & K)]); eauto. }
  destruct C as (new_w & new_h & C).
  exists new_w, new_h. eexists. split; [exact C|]. cbv zeta.
  split.
  { unfold prepare_watermark, bind, lift, ret, print, emit. rewrite E.
    unfold size. destruct (convert_size RGBA opened) as [-> ->].
    rewrite C. reflexivity. }
  intros x y.
  set (resized := resize_lanczos env (convert RGBA opened) (new_w, new_h)).
  destruct (R8 (convert RGBA opened) (new_w, new_h) x y) as (_ & _ & _ & A).
  fold resized in A.
  rewrite apply_opacity_pixel by assumption.
  cbn [red green blue alpha].
  repeat split; try reflexivity.
  - now apply scale_alpha_bounds.
  - now apply scale_alpha_bounds.
  - now apply scale_alpha_accuracy.
  - now apply scale_alpha_accuracy.
  - intros O. now apply scale_alpha_one.
Qed.

(* ================================================================= *)
(** ** Validation and failure *)

Lemma int_of_str_cases (s : string) :
  (exists n, int_of_str s = Ok n) \/ int_of_str s = Raise ValueError.
Proof.
  unfold int_of_str.
  destruct (strip (list_ascii_of_string s)) as [|c cs] eqn:E.
  - destruct (_ <? _)%nat; [now right|].
    destruct (digits_value _ _ _); [left; eauto | now right].
  - set (sb := match c with
               | "-"%char => (true, cs)
               | "+"%char => (false, cs)
               | _ => (false, c :: cs)
               end).
    assert (K : forall sb : bool * list ascii,
               (exists n,
                   (let '(negative, body) := sb in
                    if (INT_MAX_STR_DIGITS <? List.length (filter is_digit body))%nat
                    then Raise ValueError
                    else match digits_value body 0 false with
                         | Some n => Ok (if negative then - n else n)
                         | None => Raise ValueError
                         end) = Ok n) \/
               (let '(negative, body) := sb in
                if (INT_MAX_STR_DIGITS <? List.length (filter is_digit body))%nat
                then Raise ValueError
                else match digits_value body 0 false with
                     | Some n => Ok (if negative then - n else n)
                     | None => Raise ValueError
                     end) = Raise ValueError).
    { intros [ng body]. destruct (_ <? _)%nat; [now right|].
      destruct (digits_value _ _ _); [left; eauto | now right]. }
    apply (K sb).
Qed.

(** The run of the validation of lines 152-159. *)
Lemma check_quality_run (args : Args) (t : list event) :
  (Spec.quality_accepted (quality args) /\ check_quality args t = (Ok tt, t))
  \/
  (~ Spec.quality_accepted (quality args) /\
   check_quality args t
   = (Raise (SystemExit 1), t ++ [EvStdout quality_error])).
Proof.
  unfold check_quality, Spec.quality_accepted.
  destruct (String.eqb_spec (quality args) "lossless") as [L | L].
  { left. split; [now left | reflexivity]. }
  cbn [negb].
  unfold try_except_ValueError, bind, lift, sys_exit, raise, ret, print, emit.
  destruct (int_of_str_cases (quality args)) as [[n E] | E]; rewrite E.
  - destruct ((1 <=? n) && (n <=? 100)) eqn:B; cbn [negb].
    + left. split; [|reflexivity]. right. exists n. split; [reflexivity|].
      apply andb_true_iff in B. lia.
    + right. split; [|reflexivity].
      intros [K | (m & Em & Hm)]; [contradiction|].
      injection Em as <-.
      apply andb_false_iff in B. lia.
  - right. split; [|reflexivity].
    intros [K | (m & Em & Hm)]; [contradiction | discriminate].
Qed.

(** Extraction starts by creating the staging directory and running
    [pdftoppm]: a log without these events has seen no extraction. *)
Lemma extract_pages_logs (env : Env) (pdf_path tmp_dir : string)
  (t : list event) :
  exists r new,
    extract_pages env pdf_path tmp_dir t
    = (r, t ++ EvMakedirs tmp_dir
             :: EvRun ["pdftoppm"; "-png"; "-r"; "72"; pdf_path;
                       os_path_join tmp_dir "page"] :: new).
Proof.
  unfold extract_pages, bind, print, emit, lift, ret, raise.
  destruct (run_status env _) as [status | e].
  - destruct (status =? 0).
    + do 2 eexists. rewrite <- !app_assoc. cbn [app]. reflexivity.
    + exists (Raise (CalledProcessError status)), []. now rewrite <- app_assoc.
  - exists (Raise e), []. now rewrite <- app_assoc.
Qed.


(** A loop whose body only appends events of some kind and only raises
    exceptions of some kind does the same. *)
Lemma for_enumerate_log {A S : Type} (P : event -> Prop) (E : exn -> Prop)
  (body : Z -> A -> S -> IO S) :
  (forall i x acc t, exists r new,
      body i x acc t = (r, t ++ new) /\ Forall P new /\
      (forall e, r = Raise e -> E e)) ->
  forall xs i acc t, exists r new,
      for_enumerate body xs i acc t = (r, t ++ new) /\ Forall P new /\
      (forall e, r = Raise e -> E e).
Proof.
  intros B xs. induction xs as [|x xs IH]; intros i acc t.
  - exists (Ok acc), []. cbn. rewrite app_nil_r.
    repeat split; [constructor | discriminate].
  - cbn [for_enumerate]. unfold bind.
    destruct (B i x acc t) as (r & new & R & F & X). rewrite R.
    destruct r as [acc' | e].
    + destruct (IH (i + 1) acc' (t ++ new)) as (r' & new' & R' & F' & X').
      exists r', (new ++ new'). rewrite R', app_assoc.
      repeat split; [now apply Forall_app | exact X'].
    + exists (Raise e), new. repeat split; assumption.
Qed.

(** C5. On the empty sequence of images [build_pdf] prints its error and
    exits with status 1, whatever the quality and the paths: the log
    gains that line only, so no file was created or written.  On a
    non-empty sequence this branch is not taken: the error is not printed
    and the function does not exit (it returns, or raises the
    [ValueError] of a quality that is not a number). *)
Theorem build_pdf_empty_fails (env : Env) (images : list Image)
  (output_path tmp_dir quality : string) (t : list event) :
  (images = [] ->
   build_pdf env images output_path tmp_dir quality t
   = (Raise (SystemExit 1), t ++ [EvStdout no_images_error]) /\
   exit_status (fst (build_pdf env images output_path tmp_dir quality t)) = 1)
  /\
  (images <> [] ->
   exists r new,
     build_pdf env images output_path tmp_dir quality t = (r, t ++ new) /\
     Forall not_the_error new /\
     (forall e, r = Raise e -> e = ValueError) /\
     (r = Ok tt -> In (EvOpenWb output_path) new) /\
     (quality = "lossless" -> r = Ok tt)).
Proof.
  split.
  - intros ->. split; reflexivity.
  - intros N. destruct images as [|img imgs]; [contradiction|].
    unfold build_pdf. unfold bind at 1. unfold ret at 1.
    set (lossless := String.eqb quality "lossless").
    set (body := fun (i : Z) (img0 : Image) (img_paths : list string) => _).
    assert (B : forall i x acc t0, exists r new,
               body i x acc t0 = (r, t0 ++ new) /\
               Forall not_the_error new /\
               (forall e, r = Raise e -> e = ValueError /\ lossless = false)).
    { intros i x acc t0. unfold body, bind, emit, lift, ret.
      destruct lossless.
      - do 2 eexists. split; [reflexivity|].
        split; [repeat constructor; discriminate | discriminate].
      - destruct (int_of_str_cases quality) as [[q Eq] | Eq]; rewrite Eq.
        + do 2 eexists. split; [reflexivity|].
          split; [repeat constructor; discriminate | discriminate].
        + exists (Raise ValueError), []. rewrite app_nil_r.
          split; [reflexivity|]. split; [constructor|].
          intros e [= <-]. now split. }
    destruct (for_enumerate_log not_the_error _ body B (img :: imgs) 0 [] t)
      as (r & new & R & F & X).
    unfold bind. rewrite R. destruct r as [img_paths | e].
    + unfold print, emit, lift. cbn [int_truediv Z.eqb Z.mul Pos.mul].
      do 2 eexists. rewrite <- !app_assoc. split; [reflexivity|].
      split.
      { apply Forall_app. split; [exact F|].
        repeat constructor; discriminate. }
      split; [discriminate|]. split; [|reflexivity].
      intros _. apply in_or_app. right. now left.
    + destruct (X e eq_refl) as [-> L].
      exists (Raise ValueError), new. split; [reflexivity|].
      split; [exact F|]. split; [now intros e [= <-]|].
      split; [discriminate|].
      intros ->. unfold lossless in L. discriminate.
Qed.

(* ================================================================= *)
(** ** The float model against IEEE 754 binary64 *)

(** On every source size up to 24 x 24 and on some common ones the
    operations of [PyFloat] give the results of the Standard Library's
    binary64 arithmetic. *)
Example binary64_agrees :
  forallb (fun wh => Binary64.agrees (fst wh) (snd wh))
    (Binary64.grid 24 ++
     [(200, 200); (1000, 50); (50, 1000); (48, 25); (48, 49); (240, 41);
      (1920, 1080); (4000, 3000); (1376, 768); (65535, 1); (1, 65535);
      (2147483647, 3); (3, 2147483647)]) = true.
Proof. vm_compute. reflexivity. Qed.

(** Python breaks the tie [120 * 25 / 48 = 62.5] upwards, because the float
    nearest to [25 / 48] lies above it; so does the model. *)
Example tie_48_25 :
  calc_watermark_size 48 25 = Ok (120, 63) /\
  calc_watermark_size 48 49 = Ok (120, 122) /\
  calc_watermark_size 240 41 = Ok (123, 21).
Proof. repeat split; vm_compute; reflexivity. Qed.

Example int_of_str_examples :
  int_of_str "85" = Ok 85 /\ int_of_str " +1_0 " = Ok 10 /\
  int_of_str "abc" = Raise ValueError /\ int_of_str "" = Raise ValueError /\
  int_of_str "9.5" = Raise ValueError /\ int_of_str "-3" = Ok (-3).
Proof. repeat split; vm_compute; reflexivity. Qed.

(** Every plain decimal numeral from 1 to 100 is read back by [int] as its
    value, so it is an accepted quality. *)
Example decimal_qualities_accepted :
  forallb (fun n => match int_of_str (str_of_int n) with
                    | Ok m => (m =? n) && (1 <=? m) && (m <=? 100)
                    | Raise _ => false
                    end)
          (map Z.of_nat (seq 1 100)) = true.
Proof. vm_compute. reflexivity. Qed.

(** A run in which [pdftoppm] leaves no page: [main] reaches [build_pdf],
    which exits with status 1; no image was saved and no PDF was opened. *)
Example main_without_pages :
  let run := main sample_env (sample_args "lossless") [] in
  fst run = Raise (SystemExit 1) /\
  exit_status (fst run) = 1 /\
  last (snd run) (EvStdout "") = EvStdout no_images_error /\
  existsb (fun ev => match ev with
                     | EvSaveImage _ _ _ _ | EvOpenWb _ | EvWritePdf _ _ => true
                     | _ => false
                     end) (snd run) = false.
Proof. vm_compute. repeat split; reflexivity. Qed.

(* ================================================================= *)
(** ** Instances *)

Lemma sample_page_8bit : image_8bit sample_page.
Proof. intros x y. unfold pixel_8bit, is_8bit. cbn. lia. Defined.

Lemma sample_watermark_8bit : image_8bit sample_watermark.
Proof. intros x y. unfold pixel_8bit, is_8bit. cbn. lia. Defined.

Lemma sample_resize_8bit (im : Image) (sz : Z * Z) :
  image_8bit (resize_lanczos sample_env im sz).
Proof. intros x y. unfold pixel_8bit, is_8bit. cbn. lia. Defined.




Lemma build_pdf_empty_fails_witness :
  build_pdf sample_env [] "out.pdf" TMP_DIR "85" []
  = (Raise (SystemExit 1), [] ++ [EvStdout no_images_error]) /\
  exit_status (fst (build_pdf sample_env [] "out.pdf" TMP_DIR "85" [])) = 1.
Proof.
  apply (proj1 (build_pdf_empty_fails sample_env [] "out.pdf" TMP_DIR "85" [])).
  reflexivity.
Defined.


Lemma apply_watermark_pixels_witness :
  exists out,
    apply_watermark sample_env "tmp_pages/page-1.png" sample_watermark []
    = (Ok out, []) /\
    (* outside the footprint: the page *)
    red (getpixel out 1 2) = 200 /\ blue (getpixel out 1 2) = 50 /\
    (* inside: the watermark over the page, weight 128 / 255 *)
    red (getpixel out 3 2) = Spec.alpha_over 128 200 0 /\
    blue (getpixel out 3 2) = Spec.alpha_over 128 50 255.
Proof.
  destruct (apply_watermark_pixels sample_env "tmp_pages/page-1.png"
              sample_watermark sample_page [] eq_refl
              sample_page_8bit sample_watermark_8bit
              ltac:(cbn; lia) ltac:(cbn; lia))
    as (out & R & P).
  exists out. split; [exact R|].
  pose proof (P 1 2 ltac:(cbn; lia) ltac:(cbn; lia)) as P1.
  pose proof (P 3 2 ltac:(cbn; lia) ltac:(cbn; lia)) as P2.
  cbn in P1, P2.
  destruct P1 as (R1 & _ & B1). destruct P2 as (R2 & _ & B2 & _).
  repeat split; assumption.
Defined.

Lemma prepare_watermark_scales_alpha_witness :
  exists new_w new_h t',
    calc_watermark_size 4 3 = Ok (new_w, new_h) /\
    let resized := resize_lanczos sample_env (convert RGBA sample_page)
                     (new_w, new_h) in
    let out := apply_opacity resized (1 # 2) in
    prepare_watermark sample_env "sources/logo_colosal.png" (1 # 2) []
    = (Ok out, t') /\
    alpha (getpixel out 0 0) = trunc (mul (of_int 128) (1 # 2)) /\
    red (getpixel out 0 0) = 10.
Proof.
  destruct (prepare_watermark_scales_alpha sample_env
              "sources/logo_colosal.png" (1 # 2) sample_page []
              ltac:(discriminate) ltac:(discriminate) eq_refl
              ltac:(cbn; lia) ltac:(cbn; lia) sample_resize_8bit)
    as (new_w & new_h & t' & C & R & P).
  exists new_w, new_h, t'. split; [exact C|]. cbv zeta.
  split; [exact R|].
  destruct (P 0 0) as (Pr & _ & _ & Pa & _).
  split; [exact Pa | exact Pr].
Defined.

(* ================================================================= *)
(** * Further properties *)

(* ================================================================= *)
(** ** Further properties: the float rounding does not depend on the
    fraction that denotes the number *)

Lemma rhe_spec (q : Q) :
  let k := round_half_even q in
  let n := Qnum q in
  let d := Zpos (Qden q) in
  2 * Z.abs (k * d - n) < d \/
  (2 * Z.abs (k * d - n) = d /\ Z.even k = true).
Proof.
  cbv zeta. unfold round_half_even.
  pose proof (Z.div_mod (Qnum q) (Zpos (Qden q)) ltac:(lia)) as E.
  pose proof (Z.mod_pos_bound (Qnum q) (Zpos (Qden q)) ltac:(lia)) as B.
  set (d := Z.pos (Qden q)) in *. set (n := Qnum q) in *.
  set (f := n / d) in *. set (r := n mod d) in *. clearbody f r.
  destruct (Z.ltb_spec (2 * r) d); [left; nia|].
  destruct (Z.ltb_spec d (2 * r)); [left; nia|].
  right. destruct (Z.even f) eqn:Ev.
  - split; [nia | exact Ev].
  - split; [nia|]. rewrite Z.even_add, Ev. reflexivity.
Qed.

Lemma rhe_compat (q1 q2 : Q) :
  (q1 == q2)%Q -> round_half_even q1 = round_half_even q2.
Proof.
  intros E. unfold Qeq in E.
  pose proof (rhe_spec q1) as S1. pose proof (rhe_spec q2) as S2.
  cbv zeta in S1, S2.
  set (k1 := round_half_even q1) in *. set (k2 := round_half_even q2) in *.
  clearbody k1 k2.
  destruct q1 as [n1 d1], q2 as [n2 d2]. cbn [Qnum Qden] in *.
  assert (P1 : 0 < Z.pos d1) by lia. assert (P2 : 0 < Z.pos d2) by lia.
  set (D1 := Z.pos d1) in *. set (D2 := Z.pos d2) in *. clearbody D1 D2.
  (* both integers are within one half of the same rational *)
  assert (A1 : 2 * Z.abs (k1 * D1 * D2 - n1 * D2) <= D1 * D2) by nia.
  assert (A2 : 2 * Z.abs (k2 * D1 * D2 - n1 * D2) <= D1 * D2) by nia.
  assert (C : k1 = k2 \/ k1 = k2 + 1 \/ k2 = k1 + 1) by nia.
  destruct C as [C | [C | C]]; [exact C | exfalso | exfalso].
  - assert (T1 : 2 * Z.abs (k1 * D1 - n1) = D1) by nia.
    assert (T2 : 2 * Z.abs (k2 * D2 - n2) = D2) by nia.
    destruct S1 as [S1 | [_ E1]]; [lia|].
    destruct S2 as [S2 | [_ E2]]; [lia|].
    subst k1. rewrite Z.even_add, E2 in E1. discriminate.
  - assert (T1 : 2 * Z.abs (k1 * D1 - n1) = D1) by nia.
    assert (T2 : 2 * Z.abs (k2 * D2 - n2) = D2) by nia.
    destruct S1 as [S1 | [_ E1]]; [lia|].
    destruct S2 as [S2 | [_ E2]]; [lia|].
    subst k2. rewrite Z.even_add, E1 in E2. discriminate.
Qed.

Lemma mag_unique (q : Q) (k : Z) :
  (two ^ k <= Qabs q)%Q -> (Qabs q < two ^ (k + 1))%Q -> mag q = k.
Proof.
  intros L U.
  assert (Hq : ~ (q == 0)%Q).
  { intros E. rewrite E in L. pose proof (pow2_pos k).
    change (Qabs 0) with 0%Q in L. lra. }
  pose proof (mag_lower q Hq) as L'. pose proof (mag_upper q Hq) as U'.
  assert (T : (1 < two)%Q) by reflexivity.
  assert (mag q < k + 1).
  { apply (Qpower_lt_compat_l_inv two); [lra | exact T]. }
  assert (k < mag q + 1).
  { apply (Qpower_lt_compat_l_inv two); [lra | exact T]. }
  lia.
Qed.

Lemma mag_compat (q1 q2 : Q) :
  (q1 == q2)%Q -> ~ (q1 == 0)%Q -> mag q1 = mag q2.
Proof.
  intros E H. symmetry. apply mag_unique.
  - rewrite <- E. now apply mag_lower.
  - rewrite <- E. now apply mag_upper.
Qed.

(** Two fractions of the same value round to the same float. *)
Lemma rnd_compat (q1 q2 : Q) : (q1 == q2)%Q -> rnd q1 = rnd q2.
Proof.
  intros E.
  destruct (Qeq_dec q1 0) as [Z1 | N1].
  - rewrite (rnd_zero q1 Z1). symmetry. apply rnd_zero. now rewrite <- E.
  - assert (N2 : ~ (q2 == 0)%Q) by now rewrite <- E.
    rewrite !rnd_nonzero_eq by assumption.
    assert (Ec : cexp q1 = cexp q2).
    { unfold cexp. now rewrite (mag_compat q1 q2 E N1). }
    rewrite Ec. f_equal. f_equal. apply rhe_compat.
    unfold scaled. now rewrite Ec, E.
Qed.

(* ================================================================= *)
(** ** Further properties of [calc_watermark_size] *)

Lemma int_truediv_scale (k a b : Z) :
  k <> 0 -> int_truediv (k * a) (k * b) = int_truediv a b.
Proof.
  intros Hk. unfold int_truediv.
  destruct (Z.eqb_spec b 0) as [-> | Hb].
  - now rewrite Z.mul_0_r.
  - destruct (Z.eqb_spec (k * b) 0) as [E | _]; [nia|].
    f_equal. apply rnd_compat.
    rewrite !inject_Z_mult. field. split.
    + unfold Qeq, inject_Z; simpl; lia.
    + unfold Qeq, inject_Z; simpl; lia.
Qed.

(** X1. The size of the watermark depends on the aspect ratio of the logo
    only: scaling the width and the height of the logo by the same
    non-zero integer changes neither the result nor the error. *)
Theorem calc_watermark_size_scale (k orig_w orig_h : Z) :
  k <> 0 ->
  calc_watermark_size (k * orig_w) (k * orig_h)
  = calc_watermark_size orig_w orig_h.
Proof.
  intros Hk. unfold calc_watermark_size, size_after_height_floor.
  now rewrite int_truediv_scale.
Qed.

Lemma calc_watermark_size_scale_witness :
  calc_watermark_size (3 * 48) (3 * 25) = calc_watermark_size 48 25.
Proof. apply (calc_watermark_size_scale 3 48 25). lia. Defined.








(* ================================================================= *)
(** ** Further properties of the compositing *)

Lemma blend_8bit (mask in1 in2 : Z) :
  is_8bit mask -> is_8bit in1 -> is_8bit in2 -> is_8bit (blend mask in1 in2).
Proof.
  unfold is_8bit. intros Hm H1 H2. rewrite blend_alpha_over by assumption.
  now apply alpha_over_nearest.
Qed.

Lemma convert_RGB_pixel (im : Image) (x y : Z) :
  getpixel (convert RGB im) x y
  = Pixel (red (getpixel im x y)) (green (getpixel im x y))
          (blue (getpixel im x y)) 255.
Proof. unfold convert. destruct (im_mode im); reflexivity. Qed.

Lemma convert_8bit (m : mode) (im : Image) :
  image_8bit im -> image_8bit (convert m im).
Proof.
  intros H x y. destruct (H x y) as (Hr & Hg & Hb & Ha).
  unfold convert. destruct m, (im_mode im); cbn [getpixel];
    unfold pixel_8bit, is_8bit in *; cbn [red green blue alpha];
    repeat split; try lia; try apply Hr; try apply Hg; try apply Hb;
    try apply Ha.
Qed.

Lemma paste_8bit (dst src mask : Image) (box : Z * Z) :
  image_8bit dst -> image_8bit src -> image_8bit mask ->
  image_8bit (paste dst src box mask).
Proof.
  intros Hd Hs Hm x y. destruct box as [x0 y0]. cbn [paste getpixel].
  destruct (in_box x0 y0 (width src) (height src) x y); [|apply Hd].
  destruct (Hd x y) as (Dr & Dg & Db & Da).
  destruct (Hs (x - x0) (y - y0)) as (Sr & Sg & Sb & Sa).
  destruct (Hm (x - x0) (y - y0)) as (_ & _ & _ & Ma).
  unfold pixel_8bit, blend_pixel. cbn [red green blue alpha].
  repeat split; apply blend_8bit; assumption.
Qed.

(** X4. Compositing keeps rasters 8-bit, and its result is opaque: whatever
    the sizes of the page and of the watermark (an oversized watermark is
    clipped, not refused), [apply_watermark] returns a raster whose bands
    all lie in 0..255 and whose alpha is 255 everywhere. *)
Theorem apply_watermark_8bit_opaque (env : Env) (page_path : string)
  (watermark opened : Image) (t : list event) :
  image_open env page_path = Ok opened ->
  image_8bit opened -> image_8bit watermark ->
  exists out,
    apply_watermark env page_path watermark t = (Ok out, t) /\
    image_8bit out /\
    forall x y : Z, alpha (getpixel out x y) = 255.
Proof.
  intros E Hp Hw. eexists.
  split; [exact (apply_watermark_result env page_path watermark opened t E)|].
  split.
  - apply convert_8bit, paste_8bit; try assumption. now apply convert_8bit.
  - intros x y. now rewrite convert_RGB_pixel.
Qed.

Lemma apply_watermark_8bit_opaque_witness :
  exists out,
    apply_watermark sample_env "tmp_pages/page-1.png" sample_watermark []
    = (Ok out, []) /\
    image_8bit out /\
    forall x y : Z, alpha (getpixel out x y) = 255.
Proof.
  apply (apply_watermark_8bit_opaque sample_env "tmp_pages/page-1.png"
           sample_watermark sample_page [] eq_refl
           sample_page_8bit sample_watermark_8bit).
Defined.

(** X5. Inside the box of the paste, a watermark pixel of alpha 0 leaves the
    page pixel as it is and a watermark pixel of alpha 255 replaces it. *)
Theorem apply_watermark_extremes (env : Env) (page_path : string)
  (watermark opened : Image) (t : list event) :
  image_open env page_path = Ok opened ->
  image_8bit opened -> image_8bit watermark ->
  exists out,
    apply_watermark env page_path watermark t = (Ok out, t) /\
    forall x y : Z,
      let x0 := width opened - width watermark in
      let y0 := height opened - height watermark in
      in_box x0 y0 (width watermark) (height watermark) x y = true ->
      let d := getpixel opened x y in
      let s := getpixel watermark (x - x0) (y - y0) in
      let o := getpixel out x y in
      (alpha s = 0 ->
       red o = red d /\ green o = green d /\ blue o = blue d) /\
      (alpha s = 255 ->
       red o = red s /\ green o = green s /\ blue o = blue s).
Proof.
  intros E Hp Hw. eexists.
  split; [exact (apply_watermark_result env page_path watermark opened t E)|].
  intros x y x0 y0 B d s o. unfold o. rewrite convert_RGB_pixel.
  cbn [red green blue paste getpixel].
  replace (width opened - width watermark - 0) with x0 by (unfold x0; lia).
  replace (height opened - height watermark - 0) with y0 by (unfold y0; lia).
  rewrite B. cbn [blend_pixel red green blue]. fold s.
  destruct (convert_colour RGBA opened x y) as (-> & -> & ->). fold d.
  destruct (Hp x y) as (Dr & Dg & Db & _). fold d in Dr, Dg, Db.
  destruct (Hw (x - x0) (y - y0)) as (Sr & Sg & Sb & Sa).
  fold s in Sr, Sg, Sb, Sa. unfold is_8bit in *.
  rewrite !blend_alpha_over by assumption.
  split; intros A; repeat split; apply alpha_over_nearest; assumption.
Qed.

Lemma apply_watermark_extremes_witness :
  exists out,
    apply_watermark sample_env "tmp_pages/page-1.png"
      (MkImage RGBA 2 2 (fun _ _ => Pixel 1 2 3 255)) []
    = (Ok out, []) /\
    red (getpixel out 3 2) = 1 /\ blue (getpixel out 3 2) = 3.
Proof.
  destruct (apply_watermark_extremes sample_env "tmp_pages/page-1.png"
              (MkImage RGBA 2 2 (fun _ _ => Pixel 1 2 3 255)) sample_page []
              eq_refl sample_page_8bit
              ltac:(intros x y; unfold pixel_8bit, is_8bit; cbn; lia))
    as (out & R & P).
  exists out. split; [exact R|].
  destruct (P 3 2 eq_refl) as [_ O].
  destruct (O eq_refl) as (Or & _ & Ob). split; assumption.
Defined.

Lemma scale_alpha_zero (opacity : float) (p : Z) :
  (opacity == 0)%Q -> scale_alpha opacity p = 0.
Proof.
  intros O. unfold scale_alpha, mul.
  rewrite rnd_zero; [reflexivity|]. rewrite O. ring.
Qed.

Lemma apply_opacity_8bit (logo : Image) (opacity : float) :
  (0 <= opacity)%Q -> (opacity <= 1)%Q ->
  image_8bit logo -> image_8bit (apply_opacity logo opacity).
Proof.
  intros O0 O1 H x y. destruct (H x y) as (Hr & Hg & Hb & Ha).
  rewrite apply_opacity_pixel by assumption.
  unfold pixel_8bit. cbn [red green blue alpha].
  repeat split; try apply Hr; try apply Hg; try apply Hb;
    pose proof (scale_alpha_bounds opacity _ O0 O1 Ha);
    unfold is_8bit in Ha; lia.
Qed.

(** X6. Opacity 0.0 makes the watermark invisible: a page composited with the
    watermark that [prepare_watermark] builds at opacity 0.0 has the
    colours of the page everywhere. *)
Theorem zero_opacity_is_invisible (env : Env) (logo_path page_path : string)
  (opacity : float) (opened_logo opened_page : Image) (t : list event) :
  (opacity == 0)%Q ->
  image_open env logo_path = Ok opened_logo ->
  1 <= width opened_logo -> 1 <= height opened_logo ->
  (forall im sz, image_8bit (resize_lanczos env im sz)) ->
  image_open env page_path = Ok opened_page ->
  image_8bit opened_page ->
  exists watermark t' out,
    prepare_watermark env logo_path opacity t = (Ok watermark, t') /\
    apply_watermark env page_path watermark t' = (Ok out, t') /\
    forall x y : Z,
      red (getpixel out x y) = red (getpixel opened_page x y) /\
      green (getpixel out x y) = green (getpixel opened_page x y) /\
      blue (getpixel out x y) = blue (getpixel opened_page x y).
Proof.
  intros O El Hw Hh R8 Ep Hp.
  assert (O0 : (0 <= opacity)%Q) by (rewrite O; discriminate).
  assert (O1 : (opacity <= 1)%Q) by (rewrite O; discriminate).
  assert (C : exists new_w new_h,
             calc_watermark_size (width opened_logo) (height opened_logo)
             = Ok (new_w, new_h)).
  { destruct (calc_watermark_size_cases (width opened_logo)
                (height opened_logo) Hw Hh)
      as (ratio & _ & _ & _ & [(_ & K) | (_ & _ & _ & K)]); eauto. }
  destruct C as (new_w & new_h & C).
  set (resized := resize_lanczos env (convert RGBA opened_logo) (new_w, new_h)).
  exists (apply_opacity resized opacity). do 2 eexists.
  split.
  { unfold prepare_watermark, bind, lift, ret, print, emit. rewrite El.
    unfold size. destruct (convert_size RGBA opened_logo) as [-> ->].
    rewrite C. reflexivity. }
  split; [apply apply_watermark_result, Ep|].
  intros x y. rewrite convert_RGB_pixel. cbn [red green blue paste getpixel].
  destruct (convert_colour RGBA opened_page x y) as (Cr & Cg & Cb).
  destruct (in_box _ _ _ _ x y); [|now rewrite Cr, Cg, Cb].
  cbn [blend_pixel red green blue]. rewrite Cr, Cg, Cb.
  set (x' := x - _). set (y' := y - _).
  assert (W8 : image_8bit (apply_opacity resized opacity))
    by (apply apply_opacity_8bit; [assumption.. | apply R8]).
  destruct (W8 x' y') as (Sr & Sg & Sb & Sa).
  destruct (Hp x y) as (Dr & Dg & Db & _).
  assert (A : alpha (getpixel (apply_opacity resized opacity) x' y') = 0).
  { rewrite apply_opacity_pixel; try assumption; [|apply R8].
    cbn [alpha]. now apply scale_alpha_zero. }
  unfold is_8bit in *.
  rewrite !blend_alpha_over by assumption.
  repeat split; apply alpha_over_nearest; assumption.
Qed.

Lemma zero_opacity_is_invisible_witness :
  exists watermark t' out,
    prepare_watermark sample_env "sources/logo_colosal.png" 0%Q []
    = (Ok watermark, t') /\
    apply_watermark sample_env "tmp_pages/page-1.png" watermark t'
    = (Ok out, t') /\
    forall x y : Z,
      red (getpixel out x y) = red (getpixel sample_page x y) /\
      green (getpixel out x y) = green (getpixel sample_page x y) /\
      blue (getpixel out x y) = blue (getpixel sample_page x y).
Proof.
  apply (zero_opacity_is_invisible sample_env "sources/logo_colosal.png"
           "tmp_pages/page-1.png" 0%Q sample_page sample_page []
           ltac:(reflexivity) eq_refl ltac:(cbn; lia) ltac:(cbn; lia)
           sample_resize_8bit eq_refl sample_page_8bit).
Defined.

(* ================================================================= *)
(** ** Further properties of [extract_pages] *)

Lemma insert_sorted_perm (p : string) (l : list string) :
  Permutation (insert_sorted p l) (p :: l).
Proof.
  induction l as [|q l IH]; cbn [insert_sorted]; [reflexivity|].
  destruct (String.leb p q); [reflexivity|].
  rewrite IH. apply perm_swap.
Qed.

Lemma insert_sorted_hd (p a : string) (l : list string) :
  path_le a p -> HdRel path_le a l -> HdRel path_le a (insert_sorted p l).
Proof.
  intros Hap H. destruct l as [|q l]; cbn [insert_sorted].
  - now constructor.
  - destruct (String.leb p q); constructor; [exact Hap|].
    now inversion H.
Qed.

Lemma insert_sorted_sorted (p : string) (l : list string) :
  Sorted path_le l -> Sorted path_le (insert_sorted p l).
Proof.
  induction 1 as [|q l S IH H]; cbn [insert_sorted].
  - repeat constructor.
  - destruct (String.leb p q) eqn:E.
    + constructor; [now constructor|]. now constructor.
    + constructor; [exact IH|].
      apply insert_sorted_hd; [|exact H].
      destruct (String.leb_total p q) as [K | K]; [congruence | exact K].
Qed.

Lemma sorted_perm (l : list string) : Permutation (sorted l) l.
Proof.
  induction l as [|p l IH]; cbn; [reflexivity|].
  fold (sorted l). rewrite insert_sorted_perm. now constructor.
Qed.

Lemma sorted_sorted (l : list string) : Sorted path_le (sorted l).
Proof.
  induction l as [|p l IH]; cbn; [constructor|].
  now apply insert_sorted_sorted.
Qed.

(** X7. When [pdftoppm] exits with status 0, [extract_pages] returns the paths
    the staging directory lists under [page-*.png], each once, in
    ascending order of name, whatever order the listing has; it logs the
    creation of the directory, the command and one line with the count. *)
Theorem extract_pages_sorted (env : Env) (pdf_path tmp_dir : string)
  (t : list event) :
  run_status env (pdftoppm_argv pdf_path tmp_dir) = Ok 0 ->
  exists pages,
    extract_pages env pdf_path tmp_dir t
    = (Ok pages,
       t ++ [EvMakedirs tmp_dir; EvRun (pdftoppm_argv pdf_path tmp_dir);
             EvStdout (concat_str ["  Extraídas "; str_of_int (len pages);
                                   " páginas"])]) /\
    Permutation pages (glob env tmp_dir "page-*.png") /\
    Sorted path_le pages.
Proof.
  intros R. exists (sorted (glob env tmp_dir "page-*.png")).
  split; [|split; [apply sorted_perm | apply sorted_sorted]].
  unfold extract_pages, bind, print, emit, lift, ret.
  fold (pdftoppm_argv pdf_path tmp_dir). rewrite R. cbn [Z.eqb].
  now rewrite <- !app_assoc.
Qed.

Lemma extract_pages_sorted_witness :
  exists pages,
    extract_pages
      (MkEnv "/srv/app" (fun _ => true) (fun _ => Ok 0)
         (fun _ _ => ["tmp_pages/page-2.png"; "tmp_pages/page-1.png"])
         (fun _ => Ok sample_page) (fun im _ => im) (fun _ => 0))
      PDF_INPUT TMP_DIR []
    = (Ok pages,
       [] ++ [EvMakedirs TMP_DIR; EvRun (pdftoppm_argv PDF_INPUT TMP_DIR);
              EvStdout (concat_str ["  Extraídas "; str_of_int (len pages);
                                    " páginas"])]) /\
    Permutation pages ["tmp_pages/page-2.png"; "tmp_pages/page-1.png"] /\
    Sorted path_le pages.
Proof.
  apply (extract_pages_sorted
           (MkEnv "/srv/app" (fun _ => true) (fun _ => Ok 0)
              (fun _ _ => ["tmp_pages/page-2.png"; "tmp_pages/page-1.png"])
              (fun _ => Ok sample_page) (fun im _ => im) (fun _ => 0))
           PDF_INPUT TMP_DIR []).
  reflexivity.
Defined.

(* ================================================================= *)
(** ** Further properties of [build_pdf] *)

Lemma indices_cons (i : Z) (n : nat) :
  indices i (S n) = i :: indices (i + 1) n.
Proof.
  unfold indices. cbn [seq map]. f_equal; [lia|].
  rewrite <- seq_shift, map_map. apply map_ext. intros k. lia.
Qed.

(** The loop of lines 126-132 when the quality is "lossless" or a
    number. *)
Lemma save_loop_run (tmp_dir quality : string) (q : Z) (lossless : bool)
  (images : list Image) (i : Z) (acc : list string) (t : list event) :
  lossless = true \/ int_of_str quality = Ok q ->
  let ext := if lossless then "png" else "jpg" in
  for_enumerate
    (fun (i : Z) (img : Image) (img_paths : list string) =>
       bind
         (if lossless
          then emit (EvSaveImage
                       (os_path_join tmp_dir
                          (concat_str ["wm_"; format_03d i; "."; ext]))
                       "PNG" None img)
          else bind (lift (int_of_str quality))
                 (fun q0 =>
                    emit (EvSaveImage
                            (os_path_join tmp_dir
                               (concat_str ["wm_"; format_03d i; "."; ext]))
                            "JPEG" (Some q0) img)))
         (fun _ =>
            ret (img_paths ++
                 [os_path_join tmp_dir
                    (concat_str ["wm_"; format_03d i; "."; ext])])))
    images i acc t
  = (Ok (acc ++ map (wm_path tmp_dir ext) (indices i (List.length images))),
     t ++ map (fun pi => saved lossless q (fst pi) (snd pi))
            (combine (map (wm_path tmp_dir ext)
                        (indices i (List.length images))) images)).
Proof.
  intros H ext. revert i acc t.
  induction images as [|img images IH]; intros i acc t.
  - cbn. now rewrite !app_nil_r.
  - cbn [for_enumerate List.length]. rewrite indices_cons. cbn [map combine].
    unfold bind at 1 2.
    assert (S : (if lossless
                 then emit (EvSaveImage
                              (os_path_join tmp_dir
                                 (concat_str ["wm_"; format_03d i; "."; ext]))
                              "PNG" None img)
                 else bind (lift (int_of_str quality))
                        (fun q0 =>
                           emit (EvSaveImage
                                   (os_path_join tmp_dir
                                      (concat_str
                                         ["wm_"; format_03d i; "."; ext]))
                                   "JPEG" (Some q0) img))) t
                = (Ok tt, t ++ [saved lossless q (wm_path tmp_dir ext i) img])).
    { unfold saved, wm_path. destruct lossless; [reflexivity|].
      destruct H as [H | H]; [discriminate|].
      unfold bind, lift, emit. now rewrite H. }
    rewrite S. unfold ret at 1. rewrite IH.
    cbn [fst snd]. fold (wm_path tmp_dir ext i).
    now rewrite <- !app_assoc.
Qed.

(** The run of [build_pdf] on a non-empty sequence, from any log. *)
Lemma build_pdf_log (env : Env) (images : list Image)
  (output_path tmp_dir quality : string) (q : Z) :
  images <> [] ->
  String.eqb quality "lossless" = true \/ int_of_str quality = Ok q ->
  exists line, forall t,
    build_pdf env images output_path tmp_dir quality t
    = (Ok tt,
       t ++ saves (String.eqb quality "lossless") q tmp_dir images
         ++ [EvOpenWb output_path;
             EvWritePdf output_path
               (wm_paths tmp_dir
                  (if String.eqb quality "lossless" then "png" else "jpg")
                  (List.length images));
             EvStdout line]).
Proof.
  intros N H'. destruct images as [|img imgs]; [contradiction|].
  eexists. intros t.
  pose proof (save_loop_run tmp_dir quality q (String.eqb quality "lossless")
                (img :: imgs) 0 [] t H') as R.
  unfold saves, wm_paths. cbv zeta in R.
  unfold build_pdf. unfold bind at 1. unfold ret at 1. cbv zeta.
  unfold bind at 1. rewrite R.
  unfold bind, lift, print, emit.
  cbn [int_truediv Z.eqb Z.mul Pos.mul app].
  rewrite <- !app_assoc. cbn [app]. reflexivity.
Qed.

(** X8. On a non-empty sequence of images and a quality that is "lossless" or
    a number, [build_pdf] saves the images in their order under the names
    [wm_000], [wm_001], ... of the staging directory (PNG, or JPEG at that
    quality), then opens the output and writes the PDF made of exactly
    these files in the same order, and returns. *)
Theorem build_pdf_writes_pages_in_order (env : Env) (images : list Image)
  (output_path tmp_dir quality : string) (q : Z) (t : list event) :
  images <> [] ->
  quality = "lossless" \/ int_of_str quality = Ok q ->
  let lossless := String.eqb quality "lossless" in
  let ext := if lossless then "png" else "jpg" in
  exists line,
    build_pdf env images output_path tmp_dir quality t
    = (Ok tt,
       t ++ saves lossless q tmp_dir images
         ++ [EvOpenWb output_path;
             EvWritePdf output_path (wm_paths tmp_dir ext (List.length images));
             EvStdout line]).
Proof.
  intros N H lossless ext.
  assert (H' : lossless = true \/ int_of_str quality = Ok q).
  { destruct H as [-> | H]; [now left | now right]. }
  destruct (build_pdf_log env images output_path tmp_dir quality q N H')
    as [line B].
  exists line. exact (B t).
Qed.

Lemma build_pdf_writes_pages_in_order_witness :
  exists line,
    build_pdf sample_env [sample_page; sample_page] "out.pdf" TMP_DIR "85" []
    = (Ok tt,
       [] ++ saves false 85 TMP_DIR [sample_page; sample_page]
          ++ [EvOpenWb "out.pdf";
              EvWritePdf "out.pdf"
                ["tmp_pages/wm_000.jpg"; "tmp_pages/wm_001.jpg"];
              EvStdout line]).
Proof.
  apply (build_pdf_writes_pages_in_order sample_env
           [sample_page; sample_page] "out.pdf" TMP_DIR "85" 85 []).
  - discriminate.
  - right. vm_compute. reflexivity.
Defined.



(* ================================================================= *)
(** ** Further properties of [main] *)

Lemma bind_ok {A B : Type} (m : IO A) (k : A -> IO B) (t t' : list event)
  (a : A) :
  m t = (Ok a, t') -> bind m k t = k a t'.
Proof. intros H. unfold bind. now rewrite H. Qed.

Lemma bind_raise {A B : Type} (m : IO A) (k : A -> IO B) (t t' : list event)
  (e : exn) :
  m t = (Raise e, t') -> bind m k t = (Raise e, t').
Proof. intros H. unfold bind. now rewrite H. Qed.

Lemma print_run (line : string) (t : list event) :
  print line t = (Ok tt, t ++ [EvStdout line]).
Proof. reflexivity. Qed.

Lemma emit_run (ev : event) (t : list event) : emit ev t = (Ok tt, t ++ [ev]).
Proof. reflexivity. Qed.

(** [main] up to the pipeline, when the logo exists and the quality is
    accepted. *)
Lemma main_to_pipeline (env : Env) (args : Args) (t : list event) :
  isfile env (logo args) = true ->
  Spec.quality_accepted (quality args) ->
  main env args t = pipeline env args (t ++ [EvChdir (script_dir env)]).
Proof.
  intros F A. unfold main. cbv zeta.
  rewrite (bind_ok _ _ _ _ _ (emit_run _ _)).
  unfold check_logo. rewrite F. cbn [negb].
  rewrite (bind_ok _ _ _ _ tt eq_refl).
  destruct (check_quality_run args (t ++ [EvChdir (script_dir env)]))
    as [[_ R] | [N _]]; [|contradiction].
  now rewrite (bind_ok _ _ _ _ _ R).
Qed.

(** X10. The logo is checked first: without it [main] exits with status 1
    after the line that names the missing file, whatever the quality, and
    nothing else happens. *)
Theorem main_missing_logo (env : Env) (args : Args) (t : list event) :
  isfile env (logo args) = false ->
  main env args t
  = (Raise (SystemExit 1),
     t ++ [EvChdir (script_dir env);
           EvStdout (String.append "ERROR: Logo no encontrado: " (logo args))])
  /\ exit_status (fst (main env args t)) = 1.
Proof.
  intros F.
  assert (R : main env args t
              = (Raise (SystemExit 1),
                 t ++ [EvChdir (script_dir env);
                       EvStdout (String.append "ERROR: Logo no encontrado: "
                                               (logo args))])).
  { unfold main. cbv zeta.
    rewrite (bind_ok _ _ _ _ _ (emit_run _ _)).
    unfold check_logo. rewrite F. cbn [negb].
    unfold bind, print, emit, sys_exit, raise. now rewrite <- app_assoc. }
  now rewrite R.
Qed.

Lemma main_missing_logo_witness :
  main (MkEnv "/srv/app" (fun _ => false) (fun _ => Ok 0) (fun _ _ => [])
          (fun _ => Ok sample_page) (fun im _ => im) (fun _ => 0))
       (sample_args "abc") []
  = (Raise (SystemExit 1),
     [] ++ [EvChdir "/srv/app";
            EvStdout "ERROR: Logo no encontrado: sources/logo_colosal.png"])
  /\ exit_status
       (fst (main (MkEnv "/srv/app" (fun _ => false) (fun _ => Ok 0)
                     (fun _ _ => []) (fun _ => Ok sample_page)
                     (fun im _ => im) (fun _ => 0))
                  (sample_args "abc") [])) = 1.
Proof.
  apply (main_missing_logo
           (MkEnv "/srv/app" (fun _ => false) (fun _ => Ok 0) (fun _ _ => [])
              (fun _ => Ok sample_page) (fun im _ => im) (fun _ => 0))
           (sample_args "abc") []).
  reflexivity.
Defined.

(** The loop of lines 182-183. *)
Lemma unlink_loop_run (paths : list string) (i : Z) (t : list event) :
  for_enumerate (fun (_ : Z) (p : string) (_ : unit) => emit (EvUnlink p))
    paths i tt t
  = (Ok tt, t ++ map EvUnlink paths).
Proof.
  revert i t. induction paths as [|p paths IH]; intros i t.
  - cbn. now rewrite app_nil_r.
  - cbn [for_enumerate map]. rewrite (bind_ok _ _ _ _ _ (emit_run _ _)).
    rewrite IH. now rewrite <- app_assoc.
Qed.


Lemma extract_pages_run (env : Env) (pdf_path tmp_dir : string)
  (t : list event) :
  run_status env (pdftoppm_argv pdf_path tmp_dir) = Ok 0 ->
  let pages := sorted (glob env tmp_dir "page-*.png") in
  extract_pages env pdf_path tmp_dir t
  = (Ok pages,
     t ++ [EvMakedirs tmp_dir; EvRun (pdftoppm_argv pdf_path tmp_dir);
           EvStdout (concat_str ["  Extraídas "; str_of_int (len pages);
                                 " páginas"])]).
Proof.
  intros R pages. unfold extract_pages, bind, print, emit, lift, ret.
  fold (pdftoppm_argv pdf_path tmp_dir). rewrite R. cbn [Z.eqb].
  now rewrite <- !app_assoc.
Qed.

Lemma prepare_watermark_run (env : Env) (logo_path : string)
  (opacity : float) (opened : Image) (new_w new_h : Z) (t : list event) :
  image_open env logo_path = Ok opened ->
  calc_watermark_size (width opened) (height opened) = Ok (new_w, new_h) ->
  prepare_watermark env logo_path opacity t
  = (Ok (apply_opacity
           (resize_lanczos env (convert RGBA opened) (new_w, new_h)) opacity),
     t ++ [EvStdout
             (concat_str ["  Logo: "; str_of_int (width opened); "x";
                          str_of_int (height opened); " → ";
                          str_of_int new_w; "x"; str_of_int new_h])]).
Proof.
  intros E C. unfold prepare_watermark, bind, lift, ret, print, emit.
  rewrite E. unfold size. destruct (convert_size RGBA opened) as [-> ->].
  now rewrite C.
Qed.

Lemma filter_none {A : Type} (f : A -> bool) (l : list A) :
  Forall (fun x => f x = false) l -> filter f l = [].
Proof.
  induction 1 as [|x l H _ IH]; cbn; [reflexivity|]. now rewrite H.
Qed.










(* ================================================================= *)
(** ** What a failed run leaves behind *)

Lemma keeps_ret {A : Type} (a : A) : keeps_temporaries (ret a).
Proof. intros t. exists (Ok a), []. now rewrite app_nil_r. Qed.

Lemma keeps_raise {A : Type} (e : exn) : keeps_temporaries (@raise A e).
Proof. intros t. exists (Raise e), []. now rewrite app_nil_r. Qed.

Lemma keeps_lift {A : Type} (r : result A) : keeps_temporaries (lift r).
Proof. intros t. exists r, []. now rewrite app_nil_r. Qed.

Lemma keeps_emit (ev : event) :
  is_cleanup ev = false -> keeps_temporaries (emit ev).
Proof. intros H t. exists (Ok tt), [ev]. split; [reflexivity | now constructor]. Qed.

Lemma keeps_print (line : string) : keeps_temporaries (print line).
Proof. now apply keeps_emit. Qed.

Lemma keeps_bind {A B : Type} (m : IO A) (k : A -> IO B) :
  keeps_temporaries m -> (forall a, keeps_temporaries (k a)) ->
  keeps_temporaries (bind m k).
Proof.
  intros Hm Hk t. destruct (Hm t) as (r & new & R & F).
  unfold bind. rewrite R. destruct r as [a | e].
  - destruct (Hk a (t ++ new)) as (r' & new' & R' & F').
    exists r', (new ++ new'). rewrite R', app_assoc.
    split; [reflexivity | now apply Forall_app].
  - exists (Raise e), new. now split.
Qed.

Lemma keeps_try {A : Type} (body handler : IO A) :
  keeps_temporaries body -> keeps_temporaries handler ->
  keeps_temporaries (try_except_ValueError body handler).
Proof.
  intros Hb Hh t. destruct (Hb t) as (r & new & R & F).
  unfold try_except_ValueError. rewrite R.
  assert (D : exists r' new', handler (t ++ new) = (r', (t ++ new) ++ new')
                              /\ Forall (fun ev => is_cleanup ev = false) new')
    by apply Hh.
  destruct D as (r' & new' & R' & F').
  destruct r as [a | e]; [exists (Ok a), new; now split|].
  destruct e; try (eexists _, new; now split).
  exists r', (new ++ new'). rewrite R', app_assoc.
  split; [reflexivity | now apply Forall_app].
Qed.

Lemma keeps_for_enumerate {A S : Type} (body : Z -> A -> S -> IO S)
  (xs : list A) (i : Z) (acc : S) :
  (forall i x acc, keeps_temporaries (body i x acc)) ->
  keeps_temporaries (for_enumerate body xs i acc).
Proof.
  intros H. revert i acc. induction xs as [|x xs IH]; intros i acc.
  - apply keeps_ret.
  - cbn [for_enumerate]. apply keeps_bind; [apply H | intros; apply IH].
Qed.

Ltac keeps :=
  repeat first
    [ apply keeps_ret | apply keeps_raise | apply keeps_lift
    | apply keeps_print | apply keeps_emit; reflexivity
    | apply keeps_bind; [|intros]
    | apply keeps_try
    | apply keeps_for_enumerate; intros
    | match goal with
      | |- keeps_temporaries (if ?b then _ else _) => destruct b
      | |- keeps_temporaries (match ?x with _ => _ end) => destruct x
      | |- keeps_temporaries (let '(_, _) := ?x in _) => destruct x
      end ].

Lemma keeps_extract_pages (env : Env) (pdf_path tmp_dir : string) :
  keeps_temporaries (extract_pages env pdf_path tmp_dir).
Proof. unfold extract_pages. keeps. Qed.

Lemma keeps_prepare_watermark (env : Env) (logo_path : string)
  (opacity : float) :
  keeps_temporaries (prepare_watermark env logo_path opacity).
Proof. unfold prepare_watermark, size. keeps. Qed.

Lemma keeps_apply_watermark (env : Env) (page_path : string)
  (watermark : Image) :
  keeps_temporaries (apply_watermark env page_path watermark).
Proof. unfold apply_watermark, size. keeps. Qed.

Lemma keeps_build_pdf (env : Env) (images : list Image)
  (output_path tmp_dir quality : string) :
  keeps_temporaries (build_pdf env images output_path tmp_dir quality).
Proof. unfold build_pdf, sys_exit. keeps. Qed.

Lemma keeps_check_logo (env : Env) (args : Args) :
  keeps_temporaries (check_logo env args).
Proof. unfold check_logo, sys_exit. keeps. Qed.

Lemma keeps_check_quality (args : Args) :
  keeps_temporaries (check_quality args).
Proof. unfold check_quality, sys_exit. keeps. Qed.

Lemma removes_bind {A : Type} (env : Env) (m : IO A) (k : A -> IO unit) :
  keeps_temporaries m -> (forall a, removes_on_success env (k a)) ->
  removes_on_success env (bind m k).
Proof.
  intros Hm Hk t. destruct (Hm t) as (r & new & R & F).
  unfold bind. rewrite R. destruct r as [a | e].
  - destruct (Hk a (t ++ new)) as (r' & new' & R' & K).
    exists r', (new ++ new'). rewrite R', app_assoc.
    split; [reflexivity|].
    destruct r' as [u | e'].
    + destruct K as (body & -> & B). exists (new ++ body).
      split; [now rewrite app_assoc|].
      now rewrite filter_app, B, (filter_none _ _ F).
    + now rewrite filter_app, K, (filter_none _ _ F).
  - exists (Raise e), new. split; [reflexivity | now apply filter_none].
Qed.

Lemma removes_removal (env : Env) :
  removes_on_success env
    (bind (for_enumerate (fun (_ : Z) (p : string) (_ : unit) =>
                            emit (EvUnlink p))
             (glob env TMP_DIR "*") 0 tt)
       (fun _ => bind (emit (EvRmdir TMP_DIR))
                   (fun _ => print "Listo. Temporales eliminados."))).
Proof.
  intros t. exists (Ok tt), (removal env). split.
  - rewrite (bind_ok _ _ _ _ _ (unlink_loop_run _ _ _)).
    rewrite (bind_ok _ _ _ _ _ (emit_run _ _)).
    rewrite print_run. unfold removal. now rewrite <- !app_assoc.
  - exists []. now split.
Qed.

(** X12. Whatever the outside world and the arguments, [main] removes the
    temporaries only at the end of a run that returns: then the log ends
    with the removal of every entry of the staging directory, of the
    directory, and the last line; and a run that ends in [sys.exit] or in
    an exception has removed nothing. *)
Theorem main_removes_temporaries_only_on_success (env : Env) (args : Args)
  (t : list event) :
  exists r new,
    main env args t = (r, t ++ new) /\
    match r with
    | Ok _ => exists body,
        new = body ++ map EvUnlink (glob env TMP_DIR "*")
                   ++ [EvRmdir TMP_DIR;
                       EvStdout "Listo. Temporales eliminados."] /\
        filter is_cleanup body = []
    | Raise _ => filter is_cleanup new = []
    end.
Proof.
  assert (H : removes_on_success env (main env args)).
  { unfold main, pipeline. cbv zeta.
    repeat (apply removes_bind;
            [first [ apply keeps_print | apply keeps_emit; reflexivity
                   | apply keeps_check_logo | apply keeps_check_quality
                   | apply keeps_extract_pages | apply keeps_prepare_watermark
                   | apply keeps_build_pdf
                   | apply keeps_for_enumerate; intros; keeps;
                     apply keeps_apply_watermark ]
            | intros ]).
    apply removes_removal. }
  exact (H t).
Qed.

(** X13. When [pdftoppm] exits with a non-zero status, [main] stops there with
    [CalledProcessError] (exit status 1): the staging directory has been
    created and the command run, and nothing else was done. *)
Theorem main_pdftoppm_failure (env : Env) (args : Args) (status : Z)
  (t : list event) :
  isfile env (logo args) = true ->
  quality args = "lossless" \/
  (exists n, int_of_str (quality args) = Ok n /\ 1 <= n <= 100) ->
  run_status env (pdftoppm_argv PDF_INPUT TMP_DIR) = Ok status ->
  status <> 0 ->
  main env args t
  = (Raise (CalledProcessError status),
     t ++ [EvChdir (script_dir env)] ++ banner args
       ++ [EvMakedirs TMP_DIR; EvRun (pdftoppm_argv PDF_INPUT TMP_DIR)])
  /\ exit_status (fst (main env args t)) = 1.
Proof.
  intros F A R N.
  assert (M : main env args t
              = (Raise (CalledProcessError status),
                 t ++ [EvChdir (script_dir env)] ++ banner args
                   ++ [EvMakedirs TMP_DIR;
                       EvRun (pdftoppm_argv PDF_INPUT TMP_DIR)])).
  { rewrite (main_to_pipeline env args t F A). unfold pipeline.
    do 5 rewrite (bind_ok _ _ _ _ _ (print_run _ _)).
    assert (X : extract_pages env PDF_INPUT TMP_DIR
                  (((((((t ++ [EvChdir (script_dir env)])
                        ++ [EvStdout (String.append "  Logo:    " (logo args))])
                       ++ [EvStdout (String.append "  Calidad: " (quality args))])
                      ++ [EvStdout (String.append "  Salida:  " (output args))])
                     ++ [EvStdout ""])
                    ++ [EvStdout "[1/4] Extrayendo páginas del PDF..."]))
                = (Raise (CalledProcessError status),
                   t ++ [EvChdir (script_dir env)] ++ banner args
                     ++ [EvMakedirs TMP_DIR;
                         EvRun (pdftoppm_argv PDF_INPUT TMP_DIR)])).
    { unfold extract_pages, bind, print, emit, lift, ret, raise.
      fold (pdftoppm_argv PDF_INPUT TMP_DIR). rewrite R.
      destruct (Z.eqb_spec status 0); [contradiction|].
      unfold banner. repeat rewrite <- app_assoc. reflexivity. }
    now rewrite (bind_raise _ _ _ _ _ X). }
  now rewrite M.
Qed.

Lemma main_pdftoppm_failure_witness :
  let env :=
    MkEnv "/srv/app" (fun _ => true) (fun _ => Ok 127) (fun _ _ => [])
      (fun _ => Ok sample_page) (fun im _ => im) (fun _ => 0) in
  main env (sample_args "lossless") []
  = (Raise (CalledProcessError 127),
     [] ++ [EvChdir "/srv/app"] ++ banner (sample_args "lossless")
        ++ [EvMakedirs TMP_DIR; EvRun (pdftoppm_argv PDF_INPUT TMP_DIR)])
  /\ exit_status (fst (main env (sample_args "lossless") [])) = 1.
Proof.
  intros env.
  apply (main_pdftoppm_failure env (sample_args "lossless") 127 []);
    [reflexivity | now left | reflexivity | discriminate].
Defined.

(** X14. When the extraction leaves no page, [main] still prepares the
    watermark and then stops in [build_pdf] with exit status 1: no image
    and no PDF were written, and the staging directory is not removed. *)
Theorem main_without_pages_fails (env : Env) (args : Args)
  (opened_logo : Image) (t : list event) :
  isfile env (logo args) = true ->
  quality args = "lossless" \/
  (exists n, int_of_str (quality args) = Ok n /\ 1 <= n <= 100) ->
  run_status env (pdftoppm_argv PDF_INPUT TMP_DIR) = Ok 0 ->
  glob env TMP_DIR "page-*.png" = [] ->
  image_open env (logo args) = Ok opened_logo ->
  1 <= width opened_logo -> 1 <= height opened_logo ->
  exists new,
    main env args t = (Raise (SystemExit 1), t ++ new) /\
    exit_status (fst (main env args t)) = 1 /\
    last new (EvStdout "") = EvStdout no_images_error /\
    filter is_file_output new = [] /\
    filter is_cleanup new = [].
Proof.
  intros F A R G El Hw Hh.
  assert (C : exists new_w new_h,
             calc_watermark_size (width opened_logo) (height opened_logo)
             = Ok (new_w, new_h)).
  { destruct (calc_watermark_size_cases (width opened_logo)
                (height opened_logo) Hw Hh)
      as (ratio & _ & _ & _ & [(_ & K) | (_ & _ & _ & K)]); eauto. }
  destruct C as (new_w & new_h & C).
  evar (new : list event).
  assert (M : main env args t = (Raise (SystemExit 1), t ++ new)).
  { subst new. rewrite (main_to_pipeline env args t F A). unfold pipeline.
    do 5 rewrite (bind_ok _ _ _ _ _ (print_run _ _)).
    rewrite (bind_ok _ _ _ _ _ (extract_pages_run env PDF_INPUT TMP_DIR _ R)).
    rewrite G. change (sorted []) with (@nil string).
    rewrite (bind_ok _ _ _ _ _ (print_run _ _)).
    rewrite (bind_ok _ _ _ _ _
               (prepare_watermark_run env (logo args) WM_OPACITY opened_logo
                  new_w new_h _ El C)).
    rewrite (bind_ok _ _ _ _ _ (print_run _ _)).
    cbn [for_enumerate].
    rewrite (bind_ok _ _ _ _ (@nil Image) eq_refl).
    rewrite (bind_ok _ _ _ _ _ (print_run _ _)).
    assert (B : forall t0,
               build_pdf env [] (output args) TMP_DIR (quality args) t0
               = (Raise (SystemExit 1), t0 ++ [EvStdout no_images_error]))
      by reflexivity.
    rewrite (bind_raise _ _ _ _ _ (B _)).
    repeat rewrite <- app_assoc. reflexivity. }
  exists new. split; [exact M|]. split; [now rewrite M|].
  subst new. cbn [app]. repeat split.
Qed.

Lemma main_without_pages_fails_witness :
  exists new,
    main sample_env (sample_args "lossless") []
    = (Raise (SystemExit 1), [] ++ new) /\
    exit_status (fst (main sample_env (sample_args "lossless") [])) = 1 /\
    last new (EvStdout "") = EvStdout no_images_error /\
    filter is_file_output new = [] /\
    filter is_cleanup new = [].
Proof.
  apply (main_without_pages_fails sample_env (sample_args "lossless")
           sample_page []);
    [reflexivity | now left | reflexivity | reflexivity | reflexivity
    | cbn; lia | cbn; lia].
Defined.

(* ================================================================= *)
(** ** The names of the saved images *)

(** A zero-padded decimal still denotes its number. *)
Lemma zeros_string_of_uint (k : nat) (u : Decimal.uint) :
  String.append (zeros k) (NilEmpty.string_of_uint u)
  = NilEmpty.string_of_uint (Nat.iter k Decimal.D0 u).
Proof.
  induction k as [|k IH]; [reflexivity|].
  cbn [zeros Nat.iter String.append]. now rewrite IH.
Qed.

Lemma of_uint_zeros (k : nat) (u : Decimal.uint) :
  Z.of_uint (Nat.iter k Decimal.D0 u) = Z.of_uint u.
Proof. induction k as [|k IH]; [reflexivity|]. cbn [Nat.iter]. exact IH. Qed.

Lemma str_of_int_nonneg (i : Z) :
  0 <= i ->
  exists u, str_of_int i = NilEmpty.string_of_uint u /\ Z.of_uint u = i.
Proof.
  intros H. unfold str_of_int.
  pose proof (DecimalZ.of_to i) as E.
  destruct i as [|p|p]; [| |lia].
  - exists (Decimal.D0 Decimal.Nil). split; reflexivity.
  - exists (Pos.to_uint p). split; [|exact E].
    cbn [Z.to_int NilZero.string_of_int]. unfold NilZero.string_of_uint.
    destruct (Pos.to_uint p) eqn:U; try reflexivity.
    cbn in E. rewrite U in E. discriminate.
Qed.

Lemma format_03d_decodes (i : Z) :
  0 <= i ->
  option_map Z.of_uint (NilEmpty.uint_of_string (format_03d i)) = Some i.
Proof.
  intros H. destruct (str_of_int_nonneg i H) as (u & E & V).
  unfold format_03d. cbv zeta. rewrite E, zeros_string_of_uint, NilEmpty.usu.
  cbn [option_map]. now rewrite of_uint_zeros, V.
Qed.

Lemma format_03d_injective (i j : Z) :
  0 <= i -> 0 <= j -> format_03d i = format_03d j -> i = j.
Proof.
  intros Hi Hj E.
  pose proof (format_03d_decodes i Hi) as Di.
  pose proof (format_03d_decodes j Hj) as Dj.
  rewrite E in Di. congruence.
Qed.

Lemma append_cancel_l (p s1 s2 : string) :
  String.append p s1 = String.append p s2 -> s1 = s2.
Proof.
  induction p as [|c p IH]; cbn [String.append]; [easy|].
  intros E. injection E as E. now apply IH.
Qed.

Lemma append_length (s1 s2 : string) :
  String.length (String.append s1 s2)
  = (String.length s1 + String.length s2)%nat.
Proof. induction s1 as [|c s1 IH]; cbn; [reflexivity | now rewrite IH]. Qed.

Lemma append_cancel_r (s1 s2 t : string) :
  String.append s1 t = String.append s2 t -> s1 = s2.
Proof.
  intros E.
  assert (L : String.length s1 = String.length s2).
  { apply (f_equal String.length) in E. rewrite !append_length in E. lia. }
  revert s2 E L. induction s1 as [|c s1 IH]; intros [|d s2] E L;
    try discriminate; [reflexivity|].
  cbn [String.append] in E. injection E as -> E.
  f_equal. apply IH; [exact E | now injection L].
Qed.

Lemma wm_path_injective (tmp_dir ext : string) (i j : Z) :
  0 <= i -> 0 <= j -> wm_path tmp_dir ext i = wm_path tmp_dir ext j -> i = j.
Proof.
  intros Hi Hj E. apply format_03d_injective; [assumption..|].
  unfold wm_path, os_path_join, concat_str in E.
  cbn [fold_right String.append String.prefix Ascii.eqb Bool.eqb] in E.
  apply (append_cancel_r _ _ (String.append "." (String.append ext ""))).
  destruct (String.eqb tmp_dir "" ||
            String.eqb (substring (String.length tmp_dir - 1) 1 tmp_dir) "/").
  - apply append_cancel_l in E. now injection E.
  - apply append_cancel_l in E. now injection E.
Qed.

Lemma indices_range (i : Z) (n : nat) (k : Z) :
  In k (indices i n) -> i <= k.
Proof.
  unfold indices. rewrite in_map_iff. intros (m & <- & _). lia.
Qed.

Lemma indices_NoDup (i : Z) (n : nat) : NoDup (indices i n).
Proof.
  unfold indices. apply Injective_map_NoDup; [|apply seq_NoDup].
  intros a b E. lia.
Qed.

Lemma wm_paths_NoDup (tmp_dir ext : string) (n : nat) :
  NoDup (wm_paths tmp_dir ext n).
Proof.
  unfold wm_paths.
  pose proof (indices_NoDup 0 n) as D.
  pose proof (indices_range 0 n) as R.
  induction (indices 0 n) as [|k l IH]; [constructor|].
  cbn [map]. inversion D as [|? ? K D']; subst. constructor.
  - rewrite in_map_iff. intros (k' & E & I).
    assert (k' = k).
    { apply (wm_path_injective tmp_dir ext); [apply R; now right
                                               | apply R; now left | exact E]. }
    subst k'. contradiction.
  - apply IH; [exact D'|]. intros k' I. apply R. now right.
Qed.

Lemma wm_paths_length (tmp_dir ext : string) (n : nat) :
  List.length (wm_paths tmp_dir ext n) = n.
Proof. unfold wm_paths, indices. now rewrite !length_map, length_seq. Qed.

(** X15. No image overwrites another: on a non-empty sequence of images and a
    quality that is "lossless" or a number, [build_pdf] saves image after
    image under as many pairwise different paths as there are images,
    also past index 999 where the three-digit field widens, and hands
    [img2pdf] exactly these paths. *)
Theorem build_pdf_never_overwrites (env : Env) (images : list Image)
  (output_path tmp_dir quality : string) (q : Z) (t : list event) :
  images <> [] ->
  quality = "lossless" \/ int_of_str quality = Ok q ->
  exists paths line,
    build_pdf env images output_path tmp_dir quality t
    = (Ok tt,
       t ++ map (fun pi => saved (String.eqb quality "lossless") q
                             (fst pi) (snd pi))
              (combine paths images)
         ++ [EvOpenWb output_path; EvWritePdf output_path paths;
             EvStdout line]) /\
    List.length paths = List.length images /\
    NoDup paths.
Proof.
  intros N H.
  assert (H' : String.eqb quality "lossless" = true
               \/ int_of_str quality = Ok q).
  { destruct H as [-> | H]; [now left | now right]. }
  destruct (build_pdf_log env images output_path tmp_dir quality q N H')
    as [line B].
  exists (wm_paths tmp_dir
            (if String.eqb quality "lossless" then "png" else "jpg")
            (List.length images)), line.
  split; [exact (B t)|]. split; [apply wm_paths_length | apply wm_paths_NoDup].
Qed.

Lemma build_pdf_never_overwrites_witness :
  exists paths line,
    build_pdf sample_env [sample_page; sample_page] "out.pdf" TMP_DIR
      "lossless" []
    = (Ok tt,
       [] ++ map (fun pi => saved (String.eqb "lossless" "lossless") 0
                              (fst pi) (snd pi))
               (combine paths [sample_page; sample_page])
          ++ [EvOpenWb "out.pdf"; EvWritePdf "out.pdf" paths;
              EvStdout line]) /\
    List.length paths = List.length [sample_page; sample_page] /\
    NoDup paths.
Proof.
  apply (build_pdf_never_overwrites sample_env [sample_page; sample_page]
           "out.pdf" TMP_DIR "lossless" 0 []).
  - discriminate.
  - now left.
Defined.

(* ================================================================= *)
(** ** The configured opacity *)

(** X16. At opacity 1.0, the value of [WM_OPACITY], the opacity step changes
    nothing: [prepare_watermark] returns the resized logo, pixel for
    pixel. *)
Theorem prepare_watermark_full_opacity (env : Env) (logo_path : string)
  (opacity : float) (opened : Image) (t : list event) :
  (opacity == 1)%Q ->
  image_open env logo_path = Ok opened ->
  1 <= width opened -> 1 <= height opened ->
  (forall im sz, image_8bit (resize_lanczos env im sz)) ->
  exists new_w new_h out t',
    calc_watermark_size (width opened) (height opened) = Ok (new_w, new_h) /\
    prepare_watermark env logo_path opacity t = (Ok out, t') /\
    forall x y : Z,
      getpixel out x y
      = getpixel (resize_lanczos env (convert RGBA opened) (new_w, new_h)) x y.
Proof.
  intros O E Hw Hh R8.
  assert (C : exists new_w new_h,
             calc_watermark_size (width opened) (height opened)
             = Ok (new_w, new_h)).
  { destruct (calc_watermark_size_cases (width opened) (height opened) Hw Hh)
      as (ratio & _ & _ & _ & [(_ & K) | (_ & _ & _ & K)]); eauto. }
  destruct C as (new_w & new_h & C).
  exists new_w, new_h. do 2 eexists. split; [exact C|].
  split; [exact (prepare_watermark_run env logo_path opacity opened
                   new_w new_h t E C)|].
  intros x y.
  destruct (R8 (convert RGBA opened) (new_w, new_h) x y) as (_ & _ & _ & Ha).
  rewrite apply_opacity_pixel; [|rewrite O; discriminate
                                |rewrite O; discriminate | exact Ha].
  rewrite (scale_alpha_one opacity _ O Ha).
  now destruct (getpixel _ x y).
Qed.

Lemma prepare_watermark_full_opacity_witness :
  exists new_w new_h out t',
    calc_watermark_size (width sample_page) (height sample_page)
    = Ok (new_w, new_h) /\
    prepare_watermark sample_env "sources/logo_colosal.png" WM_OPACITY []
    = (Ok out, t') /\
    forall x y : Z,
      getpixel out x y
      = getpixel (resize_lanczos sample_env (convert RGBA sample_page)
                    (new_w, new_h)) x y.
Proof.
  apply (prepare_watermark_full_opacity sample_env
           "sources/logo_colosal.png" WM_OPACITY sample_page []).
  - reflexivity.
  - reflexivity.
  - cbn; lia.
  - cbn; lia.
  - exact sample_resize_8bit.
Defined.
